(** * Signed-node codec, neighbour ordering and edge-filtered subgraphs

    A shallow embedding of [indra/explanation/pathfinding/util.py] and the
    properties its specification states about it.

    Python values the functions inspect dynamically are values of [pyval];
    exceptions are the constructors of [exn]; a call that may raise returns a
    [result]; the functions that log or touch the module-level variables run
    in the monad [M] over the [world] (object store, module globals, log).

    The module rests on networkx.  Its graphs are modelled by the three
    dictionaries networkx keeps ([_node], [_succ], [_pred]) as insertion
    ordered association lists, and the library calls the module makes
    ([successors], [predecessors], [in_edges], [out_edges], [edges[...]],
    [subgraph_view], [copy], [add_nodes_from], [add_edges_from]) follow the
    library's code for [DiGraph] and [MultiDiGraph].  Beliefs are rational
    numbers, compared as Python compares finite floats.  Attribute values
    are immutable values here: the copy of a graph shares them with the
    original, as the library's shallow copy does, and nothing in this module
    updates them in place.  Graph-level attributes are left out. *)

From Stdlib Require Import ZArith QArith String Ascii List Permutation Sorted Lia.
From stdpp Require Import base option list sorting gmap strings.

Close Scope Q_scope.
Set Warnings "-register-all".
Local Open Scope string_scope.
Local Open Scope list_scope.
Local Open Scope Z_scope.

(** ** Python values and exceptions *)

Inductive pyval : Type :=
| PyNone
| PyBool (b : bool)
| PyInt (z : Z)
| PyStr (s : string)
| PyTuple (items : list pyval).

Inductive exn : Type :=
| ValueError
| TypeError
| KeyError
| NetworkXError
| InvalidReference.

Inductive result (A : Type) : Type :=
| Ok (a : A)
| Raise (e : exn).
Arguments Ok {A} a.
Arguments Raise {A} e.

#[global] Instance exn_eq_dec : EqDecision exn.
Proof. solve_decision. Defined.
#[global] Instance result_eq_dec {A} `{EqDecision A} : EqDecision (result A).
Proof. solve_decision. Defined.

Definition rbind {A B} (r : result A) (k : A -> result B) : result B :=
  match r with
  | Ok a => k a
  | Raise e => Raise e
  end.

Fixpoint rfilterM {A} (f : A -> result bool) (l : list A) : result (list A) :=
  match l with
  | [] => Ok []
  | x :: l' =>
      rbind (f x) (fun keep =>
      rbind (rfilterM f l') (fun ys => Ok (if keep then x :: ys else ys)))
  end.

Fixpoint rmapM {A B} (f : A -> result B) (l : list A) : result (list B) :=
  match l with
  | [] => Ok []
  | x :: l' => rbind (f x) (fun y => rbind (rmapM f l') (fun ys => Ok (y :: ys)))
  end.

(** ** The builtin [int] *)

Module Builtins.

(** A string is a sequence of code points below 256.  The characters that
    [int] strips from both ends are tab to carriage return and the space
    and, outside ASCII, the blanks U+0085 and U+00A0, which it first turns
    into spaces; the separators 28 to 31 are not stripped.  No code point
    from 128 to 255 is a decimal digit. *)
Definition is_space (c : ascii) : bool :=
  let n := nat_of_ascii c in
  ((9 <=? n)%nat && (n <=? 13)%nat) || (n =? 32)%nat || (n =? 133)%nat || (n =? 160)%nat.

Definition digit_of (c : ascii) : option Z :=
  let n := nat_of_ascii c in
  if ((48 <=? n)%nat && (n <=? 57)%nat) then Some (Z.of_nat (n - 48)) else None.

Definition is_underscore (c : ascii) : bool := (nat_of_ascii c =? 95)%nat.

Fixpoint lstrip (l : list ascii) : list ascii :=
  match l with
  | c :: l' => if is_space c then lstrip l' else l
  | [] => []
  end.

Definition strip (l : list ascii) : list ascii :=
  rev (lstrip (rev (lstrip l))).

(** [digits acc l] reads the rest of a decimal literal after a digit: each
    further character is a digit, or one underscore followed by a digit. *)
Fixpoint digits (acc : Z) (l : list ascii) : option Z :=
  match l with
  | [] => Some acc
  | c :: l' =>
      match digit_of c with
      | Some d => digits (10 * acc + d) l'
      | None =>
          if is_underscore c then
            match l' with
            | c' :: l'' =>
                match digit_of c' with
                | Some d => digits (10 * acc + d) l''
                | None => None
                end
            | [] => None
            end
          else None
      end
  end.

Definition unsigned_literal (l : list ascii) : option Z :=
  match l with
  | c :: l' =>
      match digit_of c with
      | Some d => digits d l'
      | None => None
      end
  | [] => None
  end.

(** [int(s)] for a string [s] in base ten: surrounding whitespace, an
    optional sign, digits with single underscores between them.  The
    interpreter's configurable limit on the number of digits is not part
    of the model. *)
Definition int_of_string (s : string) : option Z :=
  match strip (list_ascii_of_string s) with
  | "+"%char :: l => unsigned_literal l
  | "-"%char :: l => Z.opp <$> unsigned_literal l
  | l => unsigned_literal l
  end.

(** [int(v)]: numbers convert, a string is parsed and raises [ValueError]
    when it is not a literal, anything else raises [TypeError]. *)
Definition int (v : pyval) : result Z :=
  match v with
  | PyInt z => Ok z
  | PyBool b => Ok (Z.b2z b)
  | PyStr s =>
      match int_of_string s with
      | Some z => Ok z
      | None => Raise ValueError
      end
  | PyNone => Raise TypeError
  | PyTuple _ => Raise TypeError
  end.

(** Iterating over a value: the items of a tuple, the characters of a
    string; [TypeError] for a value that is not iterable. *)
Definition iter (v : pyval) : result (list pyval) :=
  match v with
  | PyTuple items => Ok items
  | PyStr s => Ok (map (fun c => PyStr (String c EmptyString)) (list_ascii_of_string s))
  | PyNone | PyBool _ | PyInt _ => Raise TypeError
  end.

(** Unpacking [a, b = v]: any iterable of exactly two items; another
    number of items is a [ValueError]. *)
Definition unpack2 (v : pyval) : result (pyval * pyval) :=
  rbind (iter v) (fun items =>
    match items with
    | [a; b] => Ok (a, b)
    | _ => Raise ValueError
    end).

End Builtins.

(** ** Insertion-ordered dictionaries

    A Python [dict] keeps its keys in insertion order, and networkx iterates
    over neighbours in that order; a dictionary is an association list with
    one entry per key.  Assigning to a present key keeps its position. *)

Section OrderedDict.
Context {K V : Type} `{EqDecision K}.

Definition odict_keys (d : list (K * V)) : list K := map fst d.

Fixpoint odict_get (d : list (K * V)) (k : K) : option V :=
  match d with
  | [] => None
  | (k', v) :: d' => if decide (k' = k) then Some v else odict_get d' k
  end.

Definition odict_mem (d : list (K * V)) (k : K) : bool :=
  match odict_get d k with Some _ => true | None => false end.

Fixpoint odict_set (d : list (K * V)) (k : K) (v : V) : list (K * V) :=
  match d with
  | [] => [(k, v)]
  | (k', v') :: d' =>
      if decide (k' = k) then (k, v) :: d' else (k', v') :: odict_set d' k v
  end.

(** [d[k]]: a missing key raises [KeyError]. *)
Definition odict_item (d : list (K * V)) (k : K) : result V :=
  match odict_get d k with
  | Some v => Ok v
  | None => Raise KeyError
  end.

End OrderedDict.

Abbreviation odict K V := (list (K * V)) (only parsing).

(** ** Graphs

    Nodes are strings or integers.  An edge's attribute dictionary is read by
    this module at two keys only: ['belief'], a number, and ['statements'], a
    list of evidence dictionaries that are read at ['internal'].  An absent
    key is [None] in the record. *)

Inductive Node : Type :=
| NStr (s : string)
| NInt (z : Z).

#[global] Instance node_eq_dec : EqDecision Node.
Proof. solve_decision. Defined.

Record stmts_dict : Type := { internal : option bool }.

Record attrs : Type := {
  belief : option Q;
  statements : option (list stmts_dict)
}.

#[global] Instance Q_eq_dec : EqDecision Q.
Proof. solve_decision. Defined.
#[global] Instance stmts_dict_eq_dec : EqDecision stmts_dict.
Proof. solve_decision. Defined.
#[global] Instance attrs_eq_dec : EqDecision attrs.
Proof. solve_decision. Defined.

Definition no_attrs : attrs := {| belief := None; statements := None |}.

(** [d.update(dd)]: the keys of [dd] win. *)
Definition attrs_update (d dd : attrs) : attrs :=
  {| belief := match belief dd with Some b => Some b | None => belief d end;
     statements := match statements dd with Some s => Some s | None => statements d end |}.

Definition node_attrs : Type := list (string * pyval).

(** The three dictionaries of a networkx directed graph; [D] is what is
    stored per pair of nodes: the attribute dictionary in a [DiGraph], the
    dictionary from edge keys to attribute dictionaries in a
    [MultiDiGraph]. *)
Record nxgraph (D : Type) : Type := {
  _node : odict Node node_attrs;
  _succ : odict Node (odict Node D);
  _pred : odict Node (odict Node D)
}.
Arguments _node {D} _.
Arguments _succ {D} _.
Arguments _pred {D} _.

Definition key : Type := Z.
Definition keydict : Type := odict key attrs.

Inductive graph : Type :=
| DiGraph (g : nxgraph attrs)
| MultiDiGraph (g : nxgraph keydict).

Definition empty_graph {D} : nxgraph D :=
  {| _node := []; _succ := []; _pred := [] |}.

Definition has_node {D} (g : nxgraph D) (n : Node) : bool := odict_mem (_node g) n.

Definition nodes {D} (g : nxgraph D) : list Node := odict_keys (_node g).

Definition get_adj {D} (adj : odict Node (odict Node D)) (a b : Node) : option D :=
  odict_get adj a ≫= fun nbrs => odict_get nbrs b.

(** The invariant networkx maintains: the three dictionaries have the same
    keys in the same order, no key occurs twice, and [_succ[u][v]] and
    [_pred[v][u]] exist together and hold the same object. *)
Definition wf_adj {D} `{EqDecision D} (ns : list Node)
    (adj radj : odict Node (odict Node D)) : bool :=
  forallb (fun '(u, nbrs) =>
             bool_decide (NoDup (odict_keys nbrs)) &&
             forallb (fun '(v, d) =>
                        bool_decide (v ∈ ns) &&
                        bool_decide (get_adj radj v u = Some d)) nbrs) adj.

Definition wf_graph {D} `{EqDecision D} (g : nxgraph D) : bool :=
  bool_decide (NoDup (odict_keys (_node g))) &&
  bool_decide (odict_keys (_succ g) = odict_keys (_node g)) &&
  bool_decide (odict_keys (_pred g) = odict_keys (_node g)) &&
  wf_adj (odict_keys (_node g)) (_succ g) (_pred g) &&
  wf_adj (odict_keys (_node g)) (_pred g) (_succ g).

(** [G.successors(n)] and [G.predecessors(n)]: the keys of [_succ[n]] and
    [_pred[n]]; [NetworkXError] when [n] is not a node. *)
Definition successors {D} (g : nxgraph D) (n : Node) : result (list Node) :=
  match odict_get (_succ g) n with
  | Some nbrs => Ok (odict_keys nbrs)
  | None => Raise NetworkXError
  end.

Definition predecessors {D} (g : nxgraph D) (n : Node) : result (list Node) :=
  match odict_get (_pred g) n with
  | Some nbrs => Ok (odict_keys nbrs)
  | None => Raise NetworkXError
  end.

(** [G.edges[(u, v)]] of a [DiGraph]. *)
Definition edge_data (g : nxgraph attrs) (u v : Node) : result attrs :=
  rbind (odict_item (_succ g) u) (fun nbrs => odict_item nbrs v).

(** All edges with their data, in iteration order of [_succ]. *)
Definition edges (g : nxgraph attrs) : list (Node * Node * attrs) :=
  flat_map (fun '(u, nbrs) => map (fun '(v, d) => (u, v, d)) nbrs) (_succ g).

Definition multi_edges (g : nxgraph keydict) : list (Node * Node * key * attrs) :=
  flat_map (fun '(u, nbrs) =>
    flat_map (fun '(v, kd) => map (fun '(k, d) => (u, v, k, d)) kd) nbrs) (_succ g).

(** ** The world: object store, module globals and the log

    Graph objects live in a store and are passed by reference ([loc]).  The
    module's globals are [G] and [edge_filter_functions]; [log] collects the
    records handed to the module's logger. *)

Definition loc : Type := nat.

Inductive log_record : Type :=
| Warning (template : string) (args : list pyval).

(** A registered edge filter: a Python function of [(u, v, *args)] that may
    read the module-level [G] and, through it, the store. *)
Record edge_filter : Type := {
  __name__ : string;
  __call__ : list graph -> option loc -> Node -> Node -> list key -> result bool
}.

Record world : Type := {
  heap : list graph;
  G : option loc;
  edge_filter_functions : gmap string edge_filter;
  log : list log_record
}.

Definition set_heap (h : list graph) (w : world) : world :=
  {| heap := h; G := G w; edge_filter_functions := edge_filter_functions w; log := log w |}.
Definition set_G (g : option loc) (w : world) : world :=
  {| heap := heap w; G := g; edge_filter_functions := edge_filter_functions w; log := log w |}.
Definition set_edge_filter_functions (r : gmap string edge_filter) (w : world) : world :=
  {| heap := heap w; G := G w; edge_filter_functions := r; log := log w |}.
Definition set_log (l : list log_record) (w : world) : world :=
  {| heap := heap w; G := G w; edge_filter_functions := edge_filter_functions w; log := l |}.

Definition M (A : Type) : Type := world -> world * result A.

#[global] Instance M_ret : MRet M := fun A a w => (w, Ok a).
#[global] Instance M_bind : MBind M := fun A B k m w =>
  match m w with
  | (w', Ok a) => k a w'
  | (w', Raise e) => (w', Raise e)
  end.

Definition lift {A} (r : result A) : M A := fun w => (w, r).
Definition raise {A} (e : exn) : M A := lift (Raise e).
Definition get_world : M world := fun w => (w, Ok w).
Definition modify (f : world -> world) : M unit := fun w => (f w, Ok tt).

(** [try: body except E: handler] for the exceptions [E] accepted by
    [catches]; what [body] did to the world before raising stays done. *)
Definition try_except {A} (body : M A) (catches : exn -> bool) (handler : M A) : M A :=
  fun w =>
    match body w with
    | (w', Raise e) => if catches e then handler w' else (w', Raise e)
    | r => r
    end.

Definition is_ValueError (e : exn) : bool :=
  match e with ValueError => true | _ => false end.

Definition logger_warning (template : string) (args : list pyval) : M unit :=
  modify (fun w => set_log (log w ++ [Warning template args]) w).

(** ** Signed-node codec *)

Definition path_sign_to_signed_nodes (source target edge_sign : pyval) : M pyval :=
  try_except
    (sign ← lift (Builtins.int edge_sign);
     if sign =? 0 then
       mret (PyTuple [PyTuple [source; PyInt 0]; PyTuple [target; PyInt 0]])
     else
       mret (PyTuple [PyTuple [source; PyInt 1]; PyTuple [target; PyInt 0]]))
    is_ValueError
    (logger_warning "Invalid sign %s when translating edge sign to int" [edge_sign];;
     mret (PyTuple [PyTuple [PyNone; PyNone]; PyTuple [PyNone; PyNone]])).

Definition signed_nodes_to_signed_edge (source target : pyval) : M pyval :=
  '(source_name, source_sign) ← lift (Builtins.unpack2 source);
  '(target_name, target_sign) ← lift (Builtins.unpack2 target);
  try_except
    (s ← lift (Builtins.int source_sign);
     t ← lift (Builtins.int target_sign);
     if s =? t then
       mret (PyTuple [source_name; target_name; PyInt 0])
     else
       mret (PyTuple [source_name; target_name; PyInt 1]))
    is_ValueError
    (logger_warning "Error translating signed nodes to signed edge using (%s, %s)"
       [source; target];;
     mret (PyTuple [PyNone; PyNone; PyNone])).

(** The call [f( *v )] of a two-parameter function: [v] is iterated and must
    give exactly two arguments. *)
Definition call_star2 {A} (f : pyval -> pyval -> M A) (v : pyval) : M A :=
  items ← lift (Builtins.iter v);
  match items with
  | [a; b] => f a b
  | _ => raise TypeError
  end.

(** ** Neighbour ordering *)

Definition edge : Type := (Node * Node)%type.

(** Iteration order of a Python [set] is fixed by hashing, not by the
    program.  The order in which [set(a).intersection(set(b))] yields its
    elements is therefore a parameter: any enumeration without repetition of
    the pairs present in both lists. *)
Record set_order : Type := {
  set_intersection : list edge -> list edge -> list edge;
  set_intersection_NoDup : forall a b, NoDup (set_intersection a b);
  set_intersection_spec : forall a b e,
    e ∈ set_intersection a b <-> e ∈ a /\ e ∈ b
}.

Section Sorted.
Context {A : Type}.

(** [sorted(l, key=key, reverse=True)]: the keys are computed first, one
    call per element from left to right, and the sort is stable: elements
    with equal keys keep their order in [l]. *)
Fixpoint insert_desc (x : Q * A) (l : list (Q * A)) : list (Q * A) :=
  match l with
  | [] => [x]
  | y :: l' => if Qle_bool (fst y) (fst x) then x :: y :: l' else y :: insert_desc x l'
  end.

Fixpoint sort_desc (l : list (Q * A)) : list (Q * A) :=
  match l with
  | [] => []
  | x :: l' => insert_desc x (sort_desc l')
  end.

Definition sorted_reverse (key : A -> result Q) (l : list A) : result (list A) :=
  rbind (rmapM (fun n => rbind (key n) (fun k => Ok (k, n))) l)
        (fun keyed => Ok (map snd (sort_desc keyed))).

End Sorted.

(** [dict.fromkeys(l)]: the first occurrence of each item, in order. *)
Fixpoint fromkeys (seen l : list Node) : list Node :=
  match l with
  | [] => []
  | n :: l' =>
      if bool_decide (n ∈ seen) then fromkeys seen l'
      else n :: fromkeys (n :: seen) l'
  end.

(** [G.nbunch_iter(n)]: a node of the graph stands for itself; any other
    value is iterated as a container of nodes, which keeps the characters of
    a string that are nodes and fails on an integer. *)
Definition nbunch_iter {D} (g : nxgraph D) (nbunch : Node) : result (list Node) :=
  if has_node g nbunch then Ok [nbunch]
  else
    match nbunch with
    | NStr s =>
        Ok (filter (fun n => odict_mem (_succ g) n = true)
              (map (fun c => NStr (String c EmptyString)) (list_ascii_of_string s)))
    | NInt _ => Raise NetworkXError
    end.

(** [G.in_edges(n)] and [G.out_edges(n)] as lists of pairs. *)
Definition in_edges {D} (g : nxgraph D) (n : Node) : result (list edge) :=
  rbind (nbunch_iter g n) (fun nb =>
  rbind (rmapM (fun m => rbind (odict_item (_pred g) m) (fun nbrs =>
                 Ok (map (fun nbr => (nbr, m)) (odict_keys nbrs))))
               (fromkeys [] nb))
        (fun ess => Ok (concat ess))).

Definition out_edges {D} (g : nxgraph D) (n : Node) : result (list edge) :=
  rbind (nbunch_iter g n) (fun nb =>
  rbind (rmapM (fun m => rbind (odict_item (_succ g) m) (fun nbrs =>
                 Ok (map (fun nbr => (m, nbr)) (odict_keys nbrs))))
               (fromkeys [] nb))
        (fun ess => Ok (concat ess))).

(** Truth value of the optional list argument: [None] and [[]] are false. *)
Definition truthy {A} (l : option (list A)) : bool :=
  match l with
  | Some (_ :: _) => true
  | _ => false
  end.

(** [.get('belief', 0)] *)
Definition get_belief (d : attrs) : Q :=
  match belief d with
  | Some b => b
  | None => 0%Q
  end.

Definition get_sorted_neighbors (S : set_order) (G : nxgraph attrs) (node : Node)
    (reverse : bool) (force_edges : option (list edge)) : result (list Node) :=
  if reverse then
    rbind (if truthy force_edges then
             rbind (in_edges G node) (fun es =>
               Ok (map fst (set_intersection S es (default [] force_edges))))
           else predecessors G node)
      (fun neighbors =>
         sorted_reverse (fun n => rbind (edge_data G n node) (fun d => Ok (get_belief d)))
                        neighbors)
  else
    rbind (if truthy force_edges then
             rbind (out_edges G node) (fun es =>
               Ok (map snd (set_intersection S es (default [] force_edges))))
           else successors G node)
      (fun neighbors =>
         sorted_reverse (fun n => rbind (edge_data G node n) (fun d => Ok (get_belief d)))
                        neighbors).

(** ** Building graphs: [add_nodes_from] and [add_edges_from] *)

Definition add_node_entry {D} (g : nxgraph D) (n : Node) : nxgraph D :=
  {| _node := odict_set (_node g) n [];
     _succ := odict_set (_succ g) n [];
     _pred := odict_set (_pred g) n [] |}.

Definition node_attrs_update (d dd : node_attrs) : node_attrs :=
  fold_left (fun acc '(k, v) => odict_set acc k v) dd d.

(** One step of [add_nodes_from] on a pair [(n, ndict)]. *)
Definition add_node {D} (g : nxgraph D) (n : Node) (ndict : node_attrs) : nxgraph D :=
  let g := if odict_mem (_node g) n then g else add_node_entry g n in
  {| _node := odict_set (_node g) n
                (node_attrs_update (default [] (odict_get (_node g) n)) ndict);
     _succ := _succ g;
     _pred := _pred g |}.

Definition add_nodes_from {D} (g : nxgraph D) (ns : list (Node * node_attrs)) : nxgraph D :=
  fold_left (fun g '(n, d) => add_node g n d) ns g.

Definition ensure_node {D} (g : nxgraph D) (n : Node) : nxgraph D :=
  if odict_mem (_succ g) n then g else add_node_entry g n.

Definition set_adj {D} (adj : odict Node (odict Node D)) (a b : Node) (x : D) :=
  odict_set adj a (odict_set (default [] (odict_get adj a)) b x).

(** One step of [DiGraph.add_edges_from] on a triple [(u, v, dd)]: the one
    attribute dictionary is stored under [_succ[u][v]] and [_pred[v][u]]. *)
Definition add_edge (g : nxgraph attrs) (u v : Node) (dd : attrs) : nxgraph attrs :=
  let g := ensure_node (ensure_node g u) v in
  let datadict := attrs_update (default no_attrs (get_adj (_succ g) u v)) dd in
  {| _node := _node g;
     _succ := set_adj (_succ g) u v datadict;
     _pred := set_adj (_pred g) v u datadict |}.

Definition add_edges_from (g : nxgraph attrs) (es : list (Node * Node * attrs)) :=
  fold_left (fun g '(u, v, dd) => add_edge g u v dd) es g.

(** One step of [MultiDiGraph.add_edges_from] on [(u, v, key, dd)]: the key
    dictionary of the pair is shared by [_succ[u][v]] and [_pred[v][u]]. *)
Definition add_multi_edge (g : nxgraph keydict) (u v : Node) (k : key) (dd : attrs)
    : nxgraph keydict :=
  let g := ensure_node (ensure_node g u) v in
  let kd := default [] (get_adj (_succ g) u v) in
  let datadict := attrs_update (default no_attrs (odict_get kd k)) dd in
  let kd := odict_set kd k datadict in
  {| _node := _node g;
     _succ := set_adj (_succ g) u v kd;
     _pred := set_adj (_pred g) v u kd |}.

Definition add_multi_edges_from (g : nxgraph keydict)
    (es : list (Node * Node * key * attrs)) :=
  fold_left (fun g '(u, v, k, dd) => add_multi_edge g u v k dd) es g.

(** ** Edge filters and subgraphs *)

(** [nx.subgraph_view(g, filter_edge=f)] builds a lazy view: it records the
    graph and the predicate and evaluates nothing. *)
Record view : Type := {
  _graph : loc;
  _EDGE_OK : option edge_filter
}.

Definition subgraph_view (g : loc) (filter_edge : option edge_filter) : view :=
  {| _graph := g; _EDGE_OK := filter_edge |}.

(** Calling the view's predicate in world [w]; calling [None] is a
    [TypeError]. *)
Definition call_EDGE_OK (w : world) (f : option edge_filter) (u v : Node)
    (args : list key) : result bool :=
  match f with
  | Some f => __call__ f (heap w) (G w) u v args
  | None => Raise TypeError
  end.

(** The edges a view shows, in iteration order of the underlying [_succ]:
    the predicate is asked about each edge, with two arguments for a
    [DiGraph] and with the edge key as third for a [MultiDiGraph]; the first
    call that raises ends the iteration. *)
Definition view_edges (ok : Node -> Node -> list key -> result bool)
    (g : nxgraph attrs) : result (list (Node * Node * attrs)) :=
  rbind (rmapM (fun '(u, nbrs) =>
                  rbind (rfilterM (fun '(v, _) => ok u v []) nbrs) (fun kept =>
                  Ok (map (fun '(v, d) => (u, v, d)) kept)))
               (_succ g))
        (fun ess => Ok (concat ess)).

Definition view_multi_edges (ok : Node -> Node -> list key -> result bool)
    (g : nxgraph keydict) : result (list (Node * Node * key * attrs)) :=
  rbind (rmapM (fun '(u, nbrs) =>
           rbind (rmapM (fun '(v, kd) =>
                    rbind (rfilterM (fun '(k, _) => ok u v [k]) kd) (fun kept =>
                    Ok (map (fun '(k, d) => (u, v, k, d)) kept)))
                  nbrs)
                 (fun ess => Ok (concat ess)))
               (_succ g))
        (fun ess => Ok (concat ess)).

Definition alloc (gr : graph) : M loc :=
  fun w => (set_heap (heap w ++ [gr]) w, Ok (length (heap w))).

(** [view.copy()]: a new graph of the class of the viewed one, filled with
    the nodes and then with the edges the view shows. *)
Definition view_copy (vw : view) : M loc :=
  w ← get_world;
  match heap w !! _graph vw with
  | None => raise InvalidReference
  | Some (DiGraph g) =>
      es ← lift (view_edges (call_EDGE_OK w (_EDGE_OK vw)) g);
      alloc (DiGraph (add_edges_from (add_nodes_from empty_graph (_node g)) es))
  | Some (MultiDiGraph g) =>
      es ← lift (view_multi_edges (call_EDGE_OK w (_EDGE_OK vw)) g);
      alloc (MultiDiGraph (add_multi_edges_from (add_nodes_from empty_graph (_node g)) es))
  end.

Definition register_edge_filter (function : edge_filter) : M edge_filter :=
  modify (fun w => set_edge_filter_functions
                     (<[__name__ function := function]> (edge_filter_functions w)) w);;
  mret function.

Definition get_subgraph (g : loc) (filter_func_name : string) : M loc :=
  modify (set_G (Some g));;
  w ← get_world;
  let filter_edge := edge_filter_functions w !! filter_func_name in
  let view := subgraph_view g filter_edge in
  new_g ← view_copy view;
  mret new_g.

(** What [G[u][v]] or [G[u][v][k]] evaluates to. *)
Inductive edge_obj : Type :=
| AttrDict (d : attrs)
| KeyDict (kd : keydict).

(** [G[u][v]]: a missing node or neighbour is a [KeyError]. *)
Definition subscript2 (gr : graph) (u v : Node) : result edge_obj :=
  match gr with
  | DiGraph g =>
      rbind (odict_item (_succ g) u) (fun nbrs =>
      rbind (odict_item nbrs v) (fun d => Ok (AttrDict d)))
  | MultiDiGraph g =>
      rbind (odict_item (_succ g) u) (fun nbrs =>
      rbind (odict_item nbrs v) (fun kd => Ok (KeyDict kd)))
  end.

(** [edge[k]] for an integer [k]: an attribute dictionary has string keys
    only. *)
Definition subscript_key (e : edge_obj) (k : key) : result edge_obj :=
  match e with
  | AttrDict _ => Raise KeyError
  | KeyDict kd => rbind (odict_item kd k) (fun d => Ok (AttrDict d))
  end.

(** [edge['statements']]: a key dictionary has integer keys only. *)
Definition subscript_statements (e : edge_obj) : result (list stmts_dict) :=
  match e with
  | AttrDict d =>
      match statements d with
      | Some stmts => Ok stmts
      | None => Raise KeyError
      end
  | KeyDict _ => Raise KeyError
  end.

(** The loop of [filter_to_internal_edges]. *)
Fixpoint any_internal (stmts : list stmts_dict) : result bool :=
  match stmts with
  | [] => Ok false
  | stmts_dict :: rest =>
      match internal stmts_dict with
      | None => Raise KeyError
      | Some true => Ok true
      | Some false => any_internal rest
      end
  end.

(** The value bound to [edge]: [G[u][v][args[0]]] when [args] is not empty,
    else [G[u][v]]. *)
Definition edge_of (gr : graph) (u v : Node) (args : list key) : result edge_obj :=
  match args with
  | k :: _ => rbind (subscript2 gr u v) (fun e => subscript_key e k)
  | [] => subscript2 gr u v
  end.

(** The body of [filter_to_internal_edges(u, v, *args)], reading the global
    [G]; subscripting [None] is a [TypeError]. *)
Definition filter_to_internal_edges_body (heap : list graph) (G : option loc)
    (u v : Node) (args : list key) : result bool :=
  match G with
  | None => Raise TypeError
  | Some l =>
      match heap !! l with
      | None => Raise InvalidReference
      | Some gr =>
          rbind (edge_of gr u v args) (fun edge =>
          rbind (subscript_statements edge) any_internal)
      end
  end.

Definition filter_to_internal_edges : edge_filter :=
  {| __name__ := "filter_to_internal_edges";
     __call__ := filter_to_internal_edges_body |}.

(** The world once the module is loaded over a store [h]: [G = None], and
    the decorator has registered [filter_to_internal_edges]. *)
Definition module_loaded (h : list graph) : world :=
  fst (register_edge_filter filter_to_internal_edges
         {| heap := h; G := None; edge_filter_functions := ∅; log := [] |}).

(** ** Vocabulary of the properties *)

(** Belief of the edge from [u] to [v], 0 when the edge has none. *)
Definition edge_belief (G : nxgraph attrs) (u v : Node) : Q :=
  match get_adj (_succ G) u v with
  | Some d => get_belief d
  | None => 0%Q
  end.

(** The edge that connects [node] to a neighbour [n] in the direction of the
    search, and its belief. *)
Definition connecting (node : Node) (reverse : bool) (n : Node) : edge :=
  if reverse then (n, node) else (node, n).

Definition connecting_belief (G : nxgraph attrs) (node : Node) (reverse : bool)
    (n : Node) : Q :=
  if reverse then edge_belief G n node else edge_belief G node n.

(** The neighbours in the direction of the search. *)
Definition neighbors_of (G : nxgraph attrs) (node : Node) (reverse : bool)
    : result (list Node) :=
  if reverse then predecessors G node else successors G node.

(** Descending order of the belief of the connecting edge. *)
Definition belief_descending (G : nxgraph attrs) (node : Node) (reverse : bool)
    (l : list Node) : Prop :=
  StronglySorted
    (fun a b => (connecting_belief G node reverse b <= connecting_belief G node reverse a)%Q) l.

Lemma insertion_intersection_spec (a b : list edge) (e : edge) :
  e ∈ remove_dups (list_intersection a b) <-> e ∈ a /\ e ∈ b.
Proof. rewrite elem_of_remove_dups. apply list_elem_of_intersection. Qed.

(** One admissible iteration order: that of the first operand. *)
Definition insertion_order : set_order :=
  {| set_intersection a b := remove_dups (list_intersection a b);
     set_intersection_NoDup a b := NoDup_remove_dups _;
     set_intersection_spec := insertion_intersection_spec |}.

(** A ['statements'] list whose records carry the given [internal] flags. *)
Definition evidence (flags : list bool) : option (list stmts_dict) :=
  Some (map (fun b => {| internal := Some b |}) flags).

(** The graph of the ordering example: [N] has edges to [Y] (belief 0.3),
    [Z] (no belief) and [X] (belief 0.9), added in this order, and [X] has an
    edge back to [N]. *)
Definition example_graph : nxgraph attrs :=
  add_edges_from (add_nodes_from empty_graph [(NStr "N", [("name", PyStr "n")])])
    [(NStr "N", NStr "Y", {| belief := Some (3 # 10)%Q; statements := evidence [false] |});
     (NStr "N", NStr "Z", {| belief := None; statements := evidence [true] |});
     (NStr "N", NStr "X", {| belief := Some (9 # 10)%Q; statements := evidence [false; true] |});
     (NStr "X", NStr "N", {| belief := Some (1 # 2)%Q; statements := evidence [] |})].

(** Two graphs with the same edge [A -> B], backed by internal evidence in
    the first and by external evidence in the second. *)
Definition internal_graph : nxgraph attrs :=
  add_edges_from empty_graph
    [(NStr "A", NStr "B", {| belief := Some 1%Q; statements := evidence [true] |})].
Definition external_graph : nxgraph attrs :=
  add_edges_from empty_graph
    [(NStr "A", NStr "B", {| belief := Some 1%Q; statements := evidence [false] |})].

(** Nodes and edges of a graph object of either class.  An edge is listed
    with the extra arguments an edge filter is called with for it: none in a
    [DiGraph], the edge key in a [MultiDiGraph]. *)
Definition graph_nodes (gr : graph) : list (Node * node_attrs) :=
  match gr with
  | DiGraph g => _node g
  | MultiDiGraph g => _node g
  end.

Definition graph_edges (gr : graph) : list (Node * Node * list key * attrs) :=
  match gr with
  | DiGraph g => map (fun '(u, v, d) => (u, v, [], d)) (edges g)
  | MultiDiGraph g => map (fun '(u, v, k, d) => (u, v, [k], d)) (multi_edges g)
  end.

Definition same_class (gr gr' : graph) : Prop :=
  match gr, gr' with
  | DiGraph _, DiGraph _ => True
  | MultiDiGraph _, MultiDiGraph _ => True
  | _, _ => False
  end.

(** Every edge has a ['statements'] list, and every record in it has the
    ['internal'] key: the shape of edge data the data model promises. *)
Definition evidence_flagged (gr : graph) : Prop :=
  forall u v args d, (u, v, args, d) ∈ graph_edges gr ->
    exists stmts, statements d = Some stmts /\
                  Forall (fun s => is_Some (internal s)) stmts.

(** Well-formed graph objects: the networkx invariant, node attribute
    dictionaries without repeated keys, and in a multigraph key dictionaries
    without repeated keys. *)
Definition wf_node_attrs {D} (g : nxgraph D) : bool :=
  forallb (fun '(_, d) => bool_decide (NoDup (odict_keys d))) (_node g).

Definition wf_keydicts (g : nxgraph keydict) : bool :=
  forallb (fun '(_, nbrs) =>
             forallb (fun '(_, kd) => bool_decide (NoDup (odict_keys kd))) nbrs)
          (_succ g).

Definition wf_object (gr : graph) : bool :=
  match gr with
  | DiGraph g => wf_graph g && wf_node_attrs g
  | MultiDiGraph g => wf_graph g && wf_node_attrs g && wf_keydicts g
  end.

(** ** Vocabulary of the codec properties *)

Definition sentinel_nodes : pyval :=
  PyTuple [PyTuple [PyNone; PyNone]; PyTuple [PyNone; PyNone]].
Definition sentinel_edge : pyval := PyTuple [PyNone; PyNone; PyNone].

(** The world after one more warning. *)
Definition logged (template : string) (args : list pyval) (w : world) : world :=
  set_log (log w ++ [Warning template args]) w.

(** A sign is unparseable when [int] gives no integer for it. *)
Definition unparseable (v : pyval) : Prop := forall z, Builtins.int v <> Ok z.

(** ** Invariants and orders used in the proofs *)

(** Descending order of the keys of keyed elements. *)
Definition key_ge {A} (x y : Q * A) : Prop := (fst y <= fst x)%Q.

(** No node occurs twice as a key, at either level. *)
Definition nodup_adj {D} (adj : odict Node (odict Node D)) : Prop :=
  NoDup (odict_keys adj) /\
  forall u nbrs, (u, nbrs) ∈ adj -> NoDup (odict_keys nbrs).

(** The networkx invariant in terms of lookups. *)
Definition consistent {D} (g : nxgraph D) : Prop :=
  NoDup (odict_keys (_node g)) /\
  odict_keys (_succ g) = odict_keys (_node g) /\
  odict_keys (_pred g) = odict_keys (_node g) /\
  nodup_adj (_succ g) /\ nodup_adj (_pred g) /\
  (forall u v d, get_adj (_succ g) u v = Some d <-> get_adj (_pred g) v u = Some d) /\
  (forall u v d, get_adj (_succ g) u v = Some d ->
     u ∈ odict_keys (_node g) /\ v ∈ odict_keys (_node g)).

(** The graph of [add_nodes_from] on the empty graph: the nodes with their
    attributes, and no edges. *)
Definition isolated {D} (ns : list (Node * node_attrs)) : nxgraph D :=
  {| _node := ns;
     _succ := map (fun n => (n, [])) (odict_keys ns);
     _pred := map (fun n => (n, [])) (odict_keys ns) |}.

(** An edge, or a keyed edge, on which the predicate [ok] answers true. *)
Definition edge_kept (ok : Node -> Node -> list key -> result bool)
    (e : Node * Node * attrs) : Prop :=
  ok e.1.1 e.1.2 [] = Ok true.

#[local] Instance edge_kept_dec ok e : Decision (edge_kept ok e).
Proof. unfold edge_kept. apply _. Defined.

Definition get_madj (adj : list (Node * list (Node * keydict))) (a b : Node) (k : key)
    : option attrs :=
  get_adj adj a b ≫= fun kd => odict_get kd k.

(** No repeated key at any of the three levels. *)
Definition nodup_madj (adj : list (Node * list (Node * keydict))) : Prop :=
  nodup_adj adj /\
  forall u nbrs v kd, (u, nbrs) ∈ adj -> (v, kd) ∈ nbrs -> NoDup (odict_keys kd).

Definition multi_edge_kept (ok : Node -> Node -> list key -> result bool)
    (e : Node * Node * key * attrs) : Prop :=
  ok e.1.1.1 e.1.1.2 [e.1.2] = Ok true.

#[local] Instance multi_edge_kept_dec ok e : Decision (multi_edge_kept ok e).
Proof. unfold multi_edge_kept. apply _. Defined.

(** ** Vocabulary of the further properties *)

#[local] Instance Qeq_decision (x y : Q) : Decision (x == y)%Q := Qeq_dec x y.

(** Keyed elements whose key equals [q], and neighbours whose connecting
    edge has belief [q]: the groups inside which a sort has ties. *)
Definition same_key {A} (q : Q) (x : Q * A) : Prop := (fst x == q)%Q.

#[local] Instance same_key_dec {A} (q : Q) (x : Q * A) : Decision (same_key q x).
Proof. unfold same_key. apply _. Defined.

Definition same_belief (G : nxgraph attrs) (node : Node) (reverse : bool) (q : Q)
    (n : Node) : Prop :=
  (connecting_belief G node reverse n == q)%Q.

#[local] Instance same_belief_dec G node reverse q n :
  Decision (same_belief G node reverse q n).
Proof. unfold same_belief. apply _. Defined.

Lemma reversed_intersection_spec (a b : list edge) (e : edge) :
  e ∈ reverse (remove_dups (list_intersection a b)) <-> e ∈ a /\ e ∈ b.
Proof. rewrite elem_of_reverse. apply insertion_intersection_spec. Qed.

Lemma reversed_intersection_NoDup (a b : list edge) :
  NoDup (reverse (remove_dups (list_intersection a b))).
Proof. rewrite reverse_Permutation. apply NoDup_remove_dups. Qed.

(** Another admissible iteration order: the first operand's, backwards. *)
Definition reversed_order : set_order :=
  {| set_intersection a b := reverse (remove_dups (list_intersection a b));
     set_intersection_NoDup := reversed_intersection_NoDup;
     set_intersection_spec := reversed_intersection_spec |}.

(** A graph with a tie: [N] has edges to [P] and to [Q], both of belief
    0.5. *)
Definition tied_graph : nxgraph attrs :=
  add_edges_from empty_graph
    [(NStr "N", NStr "P", {| belief := Some (1 # 2)%Q; statements := evidence [true] |});
     (NStr "N", NStr "Q", {| belief := Some (2 # 4)%Q; statements := evidence [false] |})].

(** A graph with malformed edge data: the edge from [B] to [C] has no
    ['statements']. *)
Definition malformed_graph : nxgraph attrs :=
  add_edges_from empty_graph
    [(NStr "A", NStr "B", {| belief := Some 1%Q; statements := evidence [true] |});
     (NStr "B", NStr "C", {| belief := Some 1%Q; statements := None |})].

(** Outcomes that are a value or the exception [e]. *)
Definition raises_only {A} (e : exn) (r : result A) : Prop :=
  match r with
  | Ok _ => True
  | Raise e' => e' = e
  end.

(** ** The neighbour search on either graph class *)

(** [G.in_edges(n)] and [G.out_edges(n)] of a [MultiDiGraph]: one pair per
    parallel edge. *)
Definition multi_in_edges (g : nxgraph keydict) (n : Node) : result (list edge) :=
  rbind (nbunch_iter g n) (fun nb =>
  rbind (rmapM (fun m => rbind (odict_item (_pred g) m) (fun nbrs =>
                 Ok (flat_map (fun '(nbr, kd) => map (fun _ => (nbr, m)) kd) nbrs)))
               (fromkeys [] nb))
        (fun ess => Ok (concat ess))).

Definition multi_out_edges (g : nxgraph keydict) (n : Node) : result (list edge) :=
  rbind (nbunch_iter g n) (fun nb =>
  rbind (rmapM (fun m => rbind (odict_item (_succ g) m) (fun nbrs =>
                 Ok (flat_map (fun '(nbr, kd) => map (fun _ => (m, nbr)) kd) nbrs)))
               (fromkeys [] nb))
        (fun ess => Ok (concat ess))).

(** [G.edges[e]] of a [MultiDiGraph]: the view unpacks the tuple [e] into
    two nodes and an edge key, [u, v, k = e], and returns
    [_adj[u][v][k]].  A tuple of another length fails to unpack. *)
Definition multi_edges_getitem (g : nxgraph keydict) (e : list Node) : result attrs :=
  match e with
  | [u; v; k] =>
      rbind (odict_item (_succ g) u) (fun nbrs =>
      rbind (odict_item nbrs v) (fun kd =>
        match k with
        | NInt z => odict_item kd z
        | NStr _ => Raise KeyError
        end))
  | _ => Raise ValueError
  end.

(** The statements of [get_sorted_neighbors] run on a [MultiDiGraph]. *)
Definition get_sorted_neighbors_multi (S : set_order) (G : nxgraph keydict)
    (node : Node) (reverse : bool) (force_edges : option (list edge))
    : result (list Node) :=
  if reverse then
    rbind (if truthy force_edges then
             rbind (multi_in_edges G node) (fun es =>
               Ok (map fst (set_intersection S es (default [] force_edges))))
           else predecessors G node)
      (fun neighbors =>
         sorted_reverse (fun n => rbind (multi_edges_getitem G [n; node])
                                        (fun d => Ok (get_belief d)))
                        neighbors)
  else
    rbind (if truthy force_edges then
             rbind (multi_out_edges G node) (fun es =>
               Ok (map snd (set_intersection S es (default [] force_edges))))
           else successors G node)
      (fun neighbors =>
         sorted_reverse (fun n => rbind (multi_edges_getitem G [node; n])
                                        (fun d => Ok (get_belief d)))
                        neighbors).

Module AnyGraph.

(** [get_sorted_neighbors] called with a graph object: Python runs the same
    statements whatever the class of [G], and each class answers with its
    own views. *)
Definition get_sorted_neighbors (S : set_order) (G : graph) (node : Node)
    (reverse : bool) (force_edges : option (list edge)) : result (list Node) :=
  match G with
  | DiGraph g => get_sorted_neighbors S g node reverse force_edges
  | MultiDiGraph g => get_sorted_neighbors_multi S g node reverse force_edges
  end.

End AnyGraph.

(** ** The neighbour ordering in the words of its specification

    These definitions read the graph through its list of edges only; they
    share nothing with the functions they are used to describe. *)

(** The graph has an edge with these end points. *)
Definition has_edge (G : nxgraph attrs) (e : edge) : Prop :=
  exists d, (e.1, e.2, d) ∈ edges G.

(** The edge with these end points has belief [q], where an edge without
    the attribute counts as having belief 0. *)
Definition edge_has_belief (G : nxgraph attrs) (e : edge) (q : Q) : Prop :=
  exists d, (e.1, e.2, d) ∈ edges G /\
            match belief d with
            | Some b => q = b
            | None => q = 0%Q
            end.

(** Of two positions of the list, the earlier holds the neighbour whose
    connecting edge has the larger or equal belief. *)
Definition sorted_by_descending_belief (G : nxgraph attrs) (node : Node)
    (reverse : bool) (l : list Node) : Prop :=
  forall (i j : nat) (a b : Node) (qa qb : Q),
    (i < j)%nat -> l !! i = Some a -> l !! j = Some b ->
    edge_has_belief G (connecting node reverse a) qa ->
    edge_has_belief G (connecting node reverse b) qb ->
    (qb <= qa)%Q.

(** A multigraph with the three edges of the ordering example. *)
Definition example_multigraph : nxgraph keydict :=
  add_multi_edges_from empty_graph
    [(NStr "N", NStr "Y", 0, {| belief := Some (3 # 10)%Q; statements := evidence [false] |});
     (NStr "N", NStr "Z", 0, {| belief := None; statements := evidence [true] |});
     (NStr "N", NStr "X", 0, {| belief := Some (9 # 10)%Q; statements := evidence [false; true] |})].

(** * Properties *)

(** ** The codec *)

Example int_examples :
  Builtins.int (PyStr " -1_0 ") = Ok (-10) /\
  Builtins.int (PyStr "1") = Ok 1 /\
  Builtins.int (PyStr "one") = Raise ValueError /\
  Builtins.int (PyStr "1__0") = Raise ValueError /\
  Builtins.int (PyStr "") = Raise ValueError /\
  Builtins.int (PyBool true) = Ok 1 /\
  Builtins.int PyNone = Raise TypeError.
Proof. repeat split; reflexivity. Qed.

(** Blanks: a tab and the no-break space are stripped, the separator 28 is
    not. *)
Example int_blank_examples :
  Builtins.int (PyStr (String (ascii_of_nat 9) "1")) = Ok 1 /\
  Builtins.int (PyStr (String (ascii_of_nat 160) "1")) = Ok 1 /\
  Builtins.int (PyStr (String (ascii_of_nat 133) "1 ")) = Ok 1 /\
  Builtins.int (PyStr (String (ascii_of_nat 28) "1")) = Raise ValueError.
Proof. repeat split; reflexivity. Qed.



Lemma path_sign_to_signed_nodes_int source target z w :
  path_sign_to_signed_nodes source target (PyInt z) w =
  (w, Ok (if z =? 0
          then PyTuple [PyTuple [source; PyInt 0]; PyTuple [target; PyInt 0]]
          else PyTuple [PyTuple [source; PyInt 1]; PyTuple [target; PyInt 0]])).
Proof.
  unfold path_sign_to_signed_nodes, try_except, mbind, M_bind, lift. simpl.
  destruct (z =? 0); reflexivity.
Qed.

(** C1. Round trip: for all node identifiers [a], [b] and every polarity
    [p] in {0, 1}, [signed_nodes_to_signed_edge( *path_sign_to_signed_nodes(a, b, p))]
    returns the triple [(a, b, p)]; nothing is logged and no global changes. *)
Theorem signed_edge_round_trip (a b : pyval) (p : Z) (w : world) :
  p = 0 \/ p = 1 ->
  (path_sign_to_signed_nodes a b (PyInt p) ≫= call_star2 signed_nodes_to_signed_edge) w
  = (w, Ok (PyTuple [a; b; PyInt p])).
Proof.
  intros [-> | ->]; unfold mbind at 1, M_bind at 1;
    rewrite path_sign_to_signed_nodes_int; reflexivity.
Qed.

Lemma signed_edge_round_trip_witness :
  (1 = 0 \/ 1 = 1) /\
  (path_sign_to_signed_nodes (PyStr "A") (PyInt 7) (PyInt 1)
     ≫= call_star2 signed_nodes_to_signed_edge) (module_loaded [])
  = (module_loaded [], Ok (PyTuple [PyStr "A"; PyInt 7; PyInt 1])).
Proof.
  split; [right; reflexivity |].
  apply (signed_edge_round_trip (PyStr "A") (PyInt 7) 1 (module_loaded [])).
  right; reflexivity.
Defined.

(** C2, as the code has it.  A positive edge gives [((source, 0), (target, 0))]
    as documented, but for a negative edge the function returns
    [((source, 1), (target, 0))]: the source is the negative node, where the
    comments of the function ("- path -> (a+, b-)", "pairs with a negative
    source node are filtered out") ask for [((source, 0), (target, 1))]. *)
Theorem path_sign_to_signed_nodes_negative_edge (source target : pyval) (w : world) :
  path_sign_to_signed_nodes source target (PyInt 0) w
  = (w, Ok (PyTuple [PyTuple [source; PyInt 0]; PyTuple [target; PyInt 0]])) /\
  path_sign_to_signed_nodes source target (PyInt 1) w
  = (w, Ok (PyTuple [PyTuple [source; PyInt 1]; PyTuple [target; PyInt 0]])) /\
  path_sign_to_signed_nodes source target (PyInt 1) w
  <> (w, Ok (PyTuple [PyTuple [source; PyInt 0]; PyTuple [target; PyInt 1]])).
Proof.
  rewrite !path_sign_to_signed_nodes_int. simpl.
  repeat split. intros H. discriminate H.
Qed.


(** C7 as stated fails: [None] is not parseable as an integer, yet both
    functions raise on it.  [int(None)] is a [TypeError], and the handlers
    catch [ValueError] only. *)
Lemma codec_raises_on_None_sign :
  unparseable PyNone /\
  snd (path_sign_to_signed_nodes (PyStr "A") (PyStr "B") PyNone (module_loaded []))
  = Raise TypeError /\
  snd (signed_nodes_to_signed_edge (PyTuple [PyStr "A"; PyNone])
         (PyTuple [PyStr "B"; PyInt 0]) (module_loaded []))
  = Raise TypeError.
Proof. repeat split. intros z H. discriminate H. Qed.

(** C7, amended.  When [int] raises [ValueError] on the sign (a string that
    is not an integer literal), [path_sign_to_signed_nodes] logs one warning
    and returns [((None, None), (None, None))]; [signed_nodes_to_signed_edge]
    logs one warning and returns [(None, None, None)] when the source sign
    is such a value, and also when it is the target sign and the source sign
    converts.  Neither call raises. *)
Theorem codec_ValueError_gives_sentinel
    (source target bad other : pyval) (w : world) :
  Builtins.int bad = Raise ValueError ->
  path_sign_to_signed_nodes source target bad w
  = (logged "Invalid sign %s when translating edge sign to int" [bad] w,
     Ok sentinel_nodes) /\
  signed_nodes_to_signed_edge (PyTuple [source; bad]) (PyTuple [target; other]) w
  = (logged "Error translating signed nodes to signed edge using (%s, %s)"
       [PyTuple [source; bad]; PyTuple [target; other]] w,
     Ok sentinel_edge) /\
  ((exists z, Builtins.int other = Ok z) ->
   signed_nodes_to_signed_edge (PyTuple [source; other]) (PyTuple [target; bad]) w
   = (logged "Error translating signed nodes to signed edge using (%s, %s)"
        [PyTuple [source; other]; PyTuple [target; bad]] w,
      Ok sentinel_edge)).
Proof.
  intros Hbad. repeat split.
  - unfold path_sign_to_signed_nodes, try_except, mbind, M_bind, lift.
    rewrite Hbad. reflexivity.
  - unfold signed_nodes_to_signed_edge, try_except, mbind, M_bind, lift. simpl.
    rewrite Hbad. reflexivity.
  - intros [z Hz].
    unfold signed_nodes_to_signed_edge, try_except, mbind, M_bind, lift. simpl.
    rewrite Hz, Hbad. reflexivity.
Qed.

Lemma codec_ValueError_gives_sentinel_witness :
  Builtins.int (PyStr "up") = Raise ValueError /\
  snd (path_sign_to_signed_nodes (PyStr "A") (PyStr "B") (PyStr "up") (module_loaded []))
  = Ok sentinel_nodes.
Proof.
  split; [reflexivity |].
  pose proof (codec_ValueError_gives_sentinel (PyStr "A") (PyStr "B") (PyStr "up")
                (PyInt 0) (module_loaded []) eq_refl) as [H _].
  rewrite H. reflexivity.
Defined.

(** ** Dictionaries *)

Section OrderedDictFacts.
Context {K V : Type} `{EqDecision K}.
Implicit Types (d : list (K * V)) (k : K) (v : V).

Lemma odict_get_Some_elem d k v : odict_get d k = Some v -> (k, v) ∈ d.
Proof.
  induction d as [|[k' v'] d IH]; simpl; [discriminate |].
  destruct (decide (k' = k)) as [-> | _].
  - intros [= ->]. left.
  - intros H'. right. auto.
Qed.

Lemma odict_get_None d k : odict_get d k = None <-> k ∉ odict_keys d.
Proof.
  induction d as [|[k' v'] d IH]; simpl.
  - split; [intros _; apply not_elem_of_nil | reflexivity].
  - rewrite not_elem_of_cons. destruct (decide (k' = k)) as [-> | Hne].
    + split; [discriminate | intros [[] _]; reflexivity].
    + rewrite IH. split; [intros ?; split; [congruence | assumption] | intros [_ ?]; assumption].
Qed.

Lemma odict_get_is_Some d k : is_Some (odict_get d k) <-> k ∈ odict_keys d.
Proof.
  destruct (odict_get d k) eqn:E.
  - split; [intros _ | eauto].
    apply odict_get_Some_elem in E.
    apply (list_elem_of_fmap_2 fst) in E. exact E.
  - apply odict_get_None in E. split; [intros [? [=]] | intros ?; contradiction].
Qed.

Lemma odict_get_NoDup d k v :
  NoDup (odict_keys d) -> (k, v) ∈ d -> odict_get d k = Some v.
Proof.
  induction d as [|[k' v'] d IH]; simpl; intros Hnd Hin.
  - apply elem_of_nil in Hin as [].
  - apply NoDup_cons in Hnd as [Hk Hnd].
    apply elem_of_cons in Hin as [[= -> ->] | Hin].
    + rewrite decide_True by reflexivity. reflexivity.
    + destruct (decide (k' = k)) as [-> | _]; [| auto].
      exfalso. apply Hk. apply (list_elem_of_fmap_2 fst) in Hin. exact Hin.
Qed.

Lemma odict_get_set d k v k' :
  odict_get (odict_set d k v) k' = if decide (k = k') then Some v else odict_get d k'.
Proof.
  induction d as [|[k0 v0] d IH]; simpl.
  - reflexivity.
  - destruct (decide (k0 = k)) as [-> | Hne]; simpl.
    + destruct (decide (k = k')); reflexivity.
    + rewrite IH. destruct (decide (k0 = k')) as [-> | _]; [| reflexivity].
      rewrite decide_False by congruence. reflexivity.
Qed.

Lemma odict_keys_set d k v :
  odict_keys (odict_set d k v) =
  if odict_mem d k then odict_keys d else odict_keys d ++ [k].
Proof.
  unfold odict_mem. induction d as [|[k0 v0] d IH]; simpl.
  - reflexivity.
  - destruct (decide (k0 = k)) as [-> | Hne]; simpl; [reflexivity |].
    rewrite IH. destruct (odict_get d k); reflexivity.
Qed.

Lemma odict_mem_true d k : odict_mem d k = true <-> k ∈ odict_keys d.
Proof.
  unfold odict_mem. rewrite <- odict_get_is_Some.
  destruct (odict_get d k); split; eauto; try discriminate. intros [? [=]].
Qed.

Lemma odict_keys_set_NoDup d k v :
  NoDup (odict_keys d) -> NoDup (odict_keys (odict_set d k v)).
Proof.
  intros Hnd. rewrite odict_keys_set.
  destruct (odict_mem d k) eqn:E; [exact Hnd |].
  apply NoDup_app. split; [exact Hnd |]. split; [| apply NoDup_singleton].
  intros x Hx Hx'. apply list_elem_of_singleton in Hx' as ->.
  apply odict_mem_true in Hx. congruence.
Qed.

End OrderedDictFacts.

(** ** Sorting *)

Section SortedFacts.
Context {A : Type}.
Implicit Types (x : Q * A) (l : list (Q * A)).

Lemma insert_desc_Permutation x l : insert_desc x l ≡ₚ x :: l.
Proof.
  induction l as [|y l IH]; simpl; [reflexivity |].
  destruct (Qle_bool (fst y) (fst x)); [reflexivity |].
  rewrite IH. apply Permutation_swap.
Qed.

Lemma sort_desc_Permutation l : sort_desc l ≡ₚ l.
Proof.
  induction l as [|x l IH]; simpl; [reflexivity |].
  rewrite insert_desc_Permutation, IH. reflexivity.
Qed.


Lemma insert_desc_sorted x l :
  StronglySorted key_ge l -> StronglySorted key_ge (insert_desc x l).
Proof.
  induction l as [|y l IH]; simpl; intros Hs.
  - repeat constructor.
  - apply StronglySorted_inv in Hs as [Hs Hy].
    destruct (Qle_bool (fst y) (fst x)) eqn:E.
    + apply Qle_bool_iff in E. constructor; [constructor; assumption |].
      constructor; [exact E |].
      eapply Forall_impl; [exact Hy |]. unfold key_ge. simpl. intros z Hz.
      eapply Qle_trans; eassumption.
    + constructor; [auto |].
      rewrite insert_desc_Permutation. constructor; [| exact Hy].
      unfold key_ge. apply Qlt_le_weak. apply Qnot_le_lt.
      intros Hle. apply Qle_bool_iff in Hle. congruence.
Qed.

Lemma sort_desc_sorted l : StronglySorted key_ge (sort_desc l).
Proof.
  induction l as [|x l IH]; simpl; [constructor |].
  apply insert_desc_sorted, IH.
Qed.

(** When every key is defined, [sorted_reverse] returns a rearrangement of
    its input in descending order of the keys. *)
Lemma sorted_reverse_spec (key : A -> result Q) (k : A -> Q) (ns : list A) :
  (forall n, n ∈ ns -> key n = Ok (k n)) ->
  exists ns', sorted_reverse key ns = Ok ns' /\ ns' ≡ₚ ns /\
             StronglySorted (fun a b => (k b <= k a)%Q) ns'.
Proof.
  intros Hkey.
  assert (Hmap : rmapM (fun n => rbind (key n) (fun q => Ok (q, n))) ns
                 = Ok (map (fun n => (k n, n)) ns)).
  { induction ns as [|n ns IH]; simpl; [reflexivity |].
    rewrite Hkey by left. simpl. rewrite IH; [reflexivity |].
    intros m Hm. apply Hkey. right. exact Hm. }
  unfold sorted_reverse. rewrite Hmap. simpl.
  set (keyed := map (fun n => (k n, n)) ns).
  exists (map snd (sort_desc keyed)). split; [reflexivity |]. split.
  - rewrite sort_desc_Permutation. unfold keyed. rewrite map_map. simpl.
    rewrite map_id. reflexivity.
  - assert (Hall : Forall (fun p => fst p = k (snd p)) (sort_desc keyed)).
    { rewrite sort_desc_Permutation. unfold keyed. apply Forall_fmap.
      apply Forall_forall. reflexivity. }
    pose proof (sort_desc_sorted keyed) as Hs.
    induction Hs as [|p s Hs IH Hp]; simpl; [constructor |].
    apply Forall_cons in Hall as [Hp0 Hall].
    constructor; [auto |].
    apply Forall_fmap. apply Forall_forall. intros q Hq. simpl.
    rewrite Forall_forall in Hp, Hall. specialize (Hp q Hq). specialize (Hall q Hq).
    unfold key_ge in Hp. rewrite Hp0, Hall in Hp. exact Hp.
Qed.

End SortedFacts.

(** ** Well-formed graphs *)

Section WellFormed.
Context {D : Type} `{EqDecision D}.

Lemma wf_adj_entry (ns : list Node) (adj radj : list (Node * list (Node * D)))
    (u : Node) (nbrs : list (Node * D)) :
  wf_adj ns adj radj = true -> (u, nbrs) ∈ adj ->
  NoDup (odict_keys nbrs) /\
  forall v d, (v, d) ∈ nbrs -> v ∈ ns /\ get_adj radj v u = Some d.
Proof.
  unfold wf_adj. rewrite forallb_forall. intros Hwf Hin.
  apply list_elem_of_In in Hin. specialize (Hwf _ Hin). simpl in Hwf.
  apply andb_true_iff in Hwf as [Hnd Hall]. apply bool_decide_eq_true in Hnd.
  split; [exact Hnd |]. intros v d Hvd.
  rewrite forallb_forall in Hall. apply list_elem_of_In in Hvd.
  specialize (Hall _ Hvd). simpl in Hall.
  apply andb_true_iff in Hall as [H1 H2].
  apply bool_decide_eq_true in H1. apply bool_decide_eq_true in H2. auto.
Qed.

Lemma wf_graph_inv (g : nxgraph D) :
  wf_graph g = true ->
  NoDup (odict_keys (_node g)) /\
  odict_keys (_succ g) = odict_keys (_node g) /\
  odict_keys (_pred g) = odict_keys (_node g) /\
  wf_adj (odict_keys (_node g)) (_succ g) (_pred g) = true /\
  wf_adj (odict_keys (_node g)) (_pred g) (_succ g) = true.
Proof.
  unfold wf_graph. rewrite !andb_true_iff, !bool_decide_eq_true. tauto.
Qed.

Lemma has_node_succ (g : nxgraph D) (n : Node) :
  wf_graph g = true -> has_node g n = true ->
  exists nbrs, odict_get (_succ g) n = Some nbrs.
Proof.
  intros Hwf Hn. apply wf_graph_inv in Hwf as (_ & Hs & _).
  apply odict_mem_true in Hn. rewrite <- Hs in Hn.
  apply odict_get_is_Some in Hn as [nbrs E]. eauto.
Qed.

Lemma has_node_pred (g : nxgraph D) (n : Node) :
  wf_graph g = true -> has_node g n = true ->
  exists nbrs, odict_get (_pred g) n = Some nbrs.
Proof.
  intros Hwf Hn. apply wf_graph_inv in Hwf as (_ & _ & Hp & _).
  apply odict_mem_true in Hn. rewrite <- Hp in Hn.
  apply odict_get_is_Some in Hn as [nbrs E]. eauto.
Qed.

Lemma pred_has_edge (g : nxgraph D) (u v : Node) (nbrs : list (Node * D)) :
  wf_graph g = true -> odict_get (_pred g) v = Some nbrs -> u ∈ odict_keys nbrs ->
  exists d, get_adj (_succ g) u v = Some d.
Proof.
  intros Hwf Hv Hu. apply wf_graph_inv in Hwf as (_ & _ & _ & _ & Hp).
  apply odict_get_Some_elem in Hv.
  destruct (wf_adj_entry _ _ _ _ _ Hp Hv) as [_ Hall].
  apply list_elem_of_fmap in Hu as ([u' d] & -> & Hud).
  exists d. apply (Hall _ _ Hud).
Qed.

Lemma succ_has_edge (g : nxgraph D) (u v : Node) (nbrs : list (Node * D)) :
  odict_get (_succ g) u = Some nbrs -> v ∈ odict_keys nbrs ->
  exists d, get_adj (_succ g) u v = Some d.
Proof.
  intros Hu Hv. apply odict_get_is_Some in Hv as [d Hd].
  exists d. unfold get_adj. rewrite Hu. exact Hd.
Qed.

End WellFormed.

(** ** Neighbour ordering *)

Lemma edge_data_get_adj (G : nxgraph attrs) (u v : Node) (d : attrs) :
  get_adj (_succ G) u v = Some d ->
  rbind (edge_data G u v) (fun d => Ok (get_belief d)) = Ok (edge_belief G u v).
Proof.
  unfold edge_data, edge_belief, get_adj, odict_item.
  destruct (odict_get (_succ G) u) as [nbrs|]; simpl; [| discriminate].
  intros ->. reflexivity.
Qed.

(** Every neighbour in the direction of the search has a connecting edge. *)
Lemma neighbors_connected (G : nxgraph attrs) (node : Node) (reverse : bool) :
  wf_graph G = true -> has_node G node = true ->
  exists nbrs, neighbors_of G node reverse = Ok nbrs /\
    forall n, n ∈ nbrs ->
      rbind (if reverse then edge_data G n node else edge_data G node n)
            (fun d => Ok (get_belief d))
      = Ok (connecting_belief G node reverse n).
Proof.
  intros Hwf Hn. unfold neighbors_of, connecting_belief. destruct reverse.
  - destruct (has_node_pred G node Hwf Hn) as [nbrs E].
    exists (odict_keys nbrs). unfold predecessors. rewrite E. split; [reflexivity |].
    intros n Hin. destruct (pred_has_edge G n node nbrs Hwf E Hin) as [d Hd].
    eapply edge_data_get_adj; eassumption.
  - destruct (has_node_succ G node Hwf Hn) as [nbrs E].
    exists (odict_keys nbrs). unfold successors. rewrite E. split; [reflexivity |].
    intros n Hin. destruct (succ_has_edge G node n nbrs E Hin) as [d Hd].
    eapply edge_data_get_adj; eassumption.
Qed.

Lemma example_graph_wf : wf_graph example_graph = true.
Proof. vm_compute. reflexivity. Qed.

(** The ordering example: [X] (0.9) before [Y] (0.3) before [Z] (no belief),
    whatever the order in which the edges were added. *)
Example get_sorted_neighbors_example (S : set_order) :
  get_sorted_neighbors S example_graph (NStr "N") false None
  = Ok [NStr "X"; NStr "Y"; NStr "Z"].
Proof. vm_compute. reflexivity. Qed.

Lemma NoDup_only (l : list Node) (x : Node) :
  NoDup l -> (forall n, n ∈ l <-> n = x) -> l = [x].
Proof.
  intros Hnd Hl. destruct l as [|a l].
  - exfalso. eapply not_elem_of_nil. apply Hl. reflexivity.
  - assert (a = x) as -> by (apply Hl; left).
    apply NoDup_cons in Hnd as [Hx Hnd]. destruct l as [|b l]; [reflexivity |].
    exfalso. apply Hx. assert (b = x) as -> by (apply Hl; right; left). left.
Qed.

(** The edges at a node of the graph, in the direction of the search. *)
Lemma incident_edges (G : nxgraph attrs) (node : Node) (reverse : bool) :
  wf_graph G = true -> has_node G node = true ->
  exists nbrs, neighbors_of G node reverse = Ok nbrs /\
    (if reverse then in_edges G node else out_edges G node)
    = Ok (map (connecting node reverse) nbrs).
Proof.
  intros Hwf Hn. unfold neighbors_of, in_edges, out_edges, nbunch_iter.
  rewrite Hn. simpl. destruct reverse.
  - destruct (has_node_pred G node Hwf Hn) as [nbrs E].
    exists (odict_keys nbrs). unfold predecessors, odict_item. rewrite E. simpl.
    rewrite app_nil_r. auto.
  - destruct (has_node_succ G node Hwf Hn) as [nbrs E].
    exists (odict_keys nbrs). unfold successors, odict_item. rewrite E. simpl.
    rewrite app_nil_r. auto.
Qed.

Lemma connecting_inj (node : Node) (reverse : bool) (a b : Node) :
  connecting node reverse a = connecting node reverse b -> a = b.
Proof. unfold connecting. destruct reverse; congruence. Qed.

Lemma endpoint_connecting (node : Node) (reverse : bool) (n : Node) :
  (if reverse then fst else snd) (connecting node reverse n) = n.
Proof. destruct reverse; reflexivity. Qed.

(** ** The internal-evidence predicate *)

Lemma any_internal_spec (stmts : list stmts_dict) :
  Forall (fun s => is_Some (internal s)) stmts ->
  exists b, any_internal stmts = Ok b /\
            (b = true <-> exists s, s ∈ stmts /\ internal s = Some true).
Proof.
  induction 1 as [|s stmts [flag Hflag] _ (b & Hb & Hiff)]; simpl.
  - exists false. split; [reflexivity |]. split; [discriminate |].
    intros (s & Hs & _). apply elem_of_nil in Hs as [].
  - rewrite Hflag. destruct flag.
    + exists true. split; [reflexivity |]. split; [| reflexivity].
      intros _. exists s. split; [left | exact Hflag].
    + exists b. split; [exact Hb |]. rewrite Hiff. split.
      * intros (s' & Hs' & Ht). exists s'. split; [right; exact Hs' | exact Ht].
      * intros (s' & Hs' & Ht). apply elem_of_cons in Hs' as [-> | Hs'].
        -- congruence.
        -- eauto.
Qed.



(** ** The shared global [G] *)

Lemma get_subgraph_unfold (g : loc) (name : string) (w : world) :
  get_subgraph g name w
  = view_copy (subgraph_view g (edge_filter_functions w !! name)) (set_G (Some g) w).
Proof.
  unfold get_subgraph, mbind, M_bind, modify, get_world, mret, M_ret. simpl.
  destruct (view_copy _ _) as [w' [new_g | e]]; reflexivity.
Qed.

Lemma view_copy_G (vw : view) (w : world) : G (fst (view_copy vw w)) = G w.
Proof.
  unfold view_copy, mbind, M_bind, get_world, lift, raise, alloc. simpl.
  destruct (heap w !! _graph vw) as [[g | g] |]; simpl; [| | reflexivity].
  - destruct (view_edges _ g); reflexivity.
  - destruct (view_multi_edges _ g); reflexivity.
Qed.

(** C9. Every call of [get_subgraph(g, name)], whatever its outcome, leaves
    the module-level [G] bound to [g], and binds it before the view is
    copied; [filter_to_internal_edges] takes its edge data from the graph
    [G] is bound to; so one and the same predicate call gives different
    answers depending on which graph went through [get_subgraph] last. *)
Theorem get_subgraph_rebinds_shared_G :
  (forall g name w, G (fst (get_subgraph g name w)) = Some g) /\
  (forall g name w,
     get_subgraph g name w
     = view_copy (subgraph_view g (edge_filter_functions w !! name)) (set_G (Some g) w)) /\
  (forall w l gr u v args,
     G w = Some l -> heap w !! l = Some gr ->
     call_EDGE_OK w (Some filter_to_internal_edges) u v args
     = rbind (edge_of gr u v args) (fun edge =>
       rbind (subscript_statements edge) any_internal)) /\
  (let w0 := module_loaded [DiGraph internal_graph; DiGraph external_graph] in
   let w1 := fst (get_subgraph 0%nat "filter_to_internal_edges" w0) in
   let w2 := fst (get_subgraph 1%nat "filter_to_internal_edges" w1) in
   call_EDGE_OK w1 (Some filter_to_internal_edges) (NStr "A") (NStr "B") [] = Ok true /\
   call_EDGE_OK w2 (Some filter_to_internal_edges) (NStr "A") (NStr "B") [] = Ok false /\
   heap w2 !! 0%nat = heap w0 !! 0%nat).
Proof.
  split; [| split; [| split]].
  - intros g name w. rewrite get_subgraph_unfold, view_copy_G. reflexivity.
  - apply get_subgraph_unfold.
  - intros w l gr u v args HG Hl. simpl. unfold filter_to_internal_edges_body.
    rewrite HG, Hl. reflexivity.
  - vm_compute. repeat split.
Qed.

Lemma get_subgraph_rebinds_shared_G_witness :
  G (fst (get_subgraph 1%nat "filter_to_internal_edges"
            (module_loaded [DiGraph internal_graph; DiGraph external_graph])))
  = Some 1%nat.
Proof.
  apply (proj1 get_subgraph_rebinds_shared_G 1%nat "filter_to_internal_edges"
           (module_loaded [DiGraph internal_graph; DiGraph external_graph])).
Defined.

(** ** Building a copy *)

Section OrderedDictUpdates.
Context {K V : Type} `{EqDecision K}.
Implicit Types (d : list (K * V)) (k : K) (v : V).

Lemma odict_set_fresh d k v : k ∉ odict_keys d -> odict_set d k v = d ++ [(k, v)].
Proof.
  induction d as [|[k0 v0] d IH]; simpl; intros Hk; [reflexivity |].
  apply not_elem_of_cons in Hk as [Hne Hk].
  rewrite decide_False by congruence. rewrite IH by exact Hk. reflexivity.
Qed.

Lemma odict_set_set d k v v' : odict_set (odict_set d k v) k v' = odict_set d k v'.
Proof.
  induction d as [|[k0 v0] d IH]; simpl.
  - rewrite decide_True by reflexivity. reflexivity.
  - destruct (decide (k0 = k)) as [-> | Hne]; simpl.
    + rewrite decide_True by reflexivity. reflexivity.
    + rewrite decide_False by exact Hne. rewrite IH. reflexivity.
Qed.

Lemma elem_of_odict_set d k v k' v' :
  (k', v') ∈ odict_set d k v -> (k', v') ∈ d \/ (k' = k /\ v' = v).
Proof.
  induction d as [|[k0 v0] d IH]; simpl.
  - intros Hin. apply list_elem_of_singleton in Hin as [= -> ->]. auto.
  - destruct (decide (k0 = k)) as [-> | Hne]; intros Hin;
      apply elem_of_cons in Hin as [Heq | Hin].
    + injection Heq as -> ->. auto.
    + left. right. exact Hin.
    + rewrite Heq. left. left.
    + destruct (IH Hin) as [? | ?]; [left; right; assumption | auto].
Qed.

Lemma odict_keys_set_mem d k v :
  k ∈ odict_keys d -> odict_keys (odict_set d k v) = odict_keys d.
Proof.
  intros Hk. rewrite odict_keys_set.
  apply odict_mem_true in Hk. rewrite Hk. reflexivity.
Qed.

Lemma elem_of_odict_NoDup d k v :
  NoDup (odict_keys d) -> ((k, v) ∈ d <-> odict_get d k = Some v).
Proof.
  intros Hnd. split; [apply odict_get_NoDup; exact Hnd | apply odict_get_Some_elem].
Qed.

End OrderedDictUpdates.

Lemma node_attrs_update_fresh (d dd : node_attrs) :
  NoDup (odict_keys (d ++ dd)) -> node_attrs_update d dd = d ++ dd.
Proof.
  unfold node_attrs_update. revert d.
  induction dd as [|[k v] dd IH]; intros d Hnd; simpl.
  - rewrite app_nil_r. reflexivity.
  - assert (Hk : k ∉ odict_keys d).
    { unfold odict_keys in Hnd. rewrite map_app in Hnd. simpl in Hnd.
      apply NoDup_app in Hnd as (_ & Hdis & _). intros Hin.
      apply (Hdis k Hin). left. }
    rewrite odict_set_fresh by exact Hk.
    rewrite IH; rewrite <- app_assoc; [reflexivity | exact Hnd].
Qed.

Section Adjacency.
Context {D : Type}.
Implicit Types (adj : list (Node * list (Node * D))) (g : nxgraph D).


Lemma get_adj_set_adj adj (a b : Node) (x : D) (a' b' : Node) :
  get_adj (set_adj adj a b x) a' b'
  = if decide (a = a' /\ b = b') then Some x else get_adj adj a' b'.
Proof.
  unfold get_adj, set_adj. rewrite odict_get_set.
  destruct (decide (a = a')) as [<- | Hne]; simpl.
  - rewrite odict_get_set.
    destruct (decide (b = b')) as [<- | Hne].
    + rewrite decide_True by auto. reflexivity.
    + rewrite decide_False by tauto.
      destruct (odict_get adj a); reflexivity.
  - rewrite decide_False by tauto. reflexivity.
Qed.

Lemma odict_set_nodup_adj adj (a : Node) (nbrs : list (Node * D)) :
  nodup_adj adj -> NoDup (odict_keys nbrs) -> nodup_adj (odict_set adj a nbrs).
Proof.
  intros [Hk Hin] Hn. split; [apply odict_keys_set_NoDup; exact Hk |].
  intros u nbrs' Hu. apply elem_of_odict_set in Hu as [Hu | [_ ->]]; eauto.
Qed.

Lemma inner_NoDup adj (a : Node) :
  nodup_adj adj -> NoDup (odict_keys (default [] (odict_get adj a))).
Proof.
  intros [_ Hin]. destruct (odict_get adj a) as [nbrs|] eqn:E; simpl.
  - apply odict_get_Some_elem in E. eauto.
  - constructor.
Qed.

Lemma set_adj_nodup_adj adj (a b : Node) (x : D) :
  nodup_adj adj -> nodup_adj (set_adj adj a b x).
Proof.
  intros Hnd. apply odict_set_nodup_adj; [exact Hnd |].
  apply odict_keys_set_NoDup, inner_NoDup, Hnd.
Qed.

Lemma set_adj_keys adj (a b : Node) (x : D) :
  a ∈ odict_keys adj -> odict_keys (set_adj adj a b x) = odict_keys adj.
Proof. apply odict_keys_set_mem. Qed.

Lemma ensure_node_present g (n : Node) :
  n ∈ odict_keys (_succ g) -> ensure_node g n = g.
Proof.
  intros Hn. unfold ensure_node. apply odict_mem_true in Hn. rewrite Hn. reflexivity.
Qed.


Lemma isolated_keys (ns : list (Node * node_attrs)) :
  odict_keys (map (fun n => (n, @nil (Node * D))) (odict_keys ns)) = odict_keys ns.
Proof. unfold odict_keys. rewrite map_map. simpl. apply map_id. Qed.

Lemma add_nodes_from_isolated (ns0 ns : list (Node * node_attrs)) :
  NoDup (odict_keys (ns0 ++ ns)) ->
  Forall (fun '(_, d) => NoDup (odict_keys d)) ns ->
  add_nodes_from (@isolated D ns0) ns = isolated (ns0 ++ ns).
Proof.
  revert ns0. induction ns as [|[n d] ns IH]; intros ns0 Hnd Hattrs; simpl.
  - rewrite app_nil_r. reflexivity.
  - apply Forall_cons in Hattrs as [Hd Hattrs].
    assert (Hn : n ∉ odict_keys ns0).
    { unfold odict_keys in Hnd. rewrite map_app in Hnd. simpl in Hnd.
      apply NoDup_app in Hnd as (_ & Hdis & _). intros Hin.
      apply (Hdis n Hin). left. }
    assert (Hstep : add_node (@isolated D ns0) n d = isolated (ns0 ++ [(n, d)])).
    { unfold add_node. simpl.
      assert (odict_mem ns0 n = false) as ->.
      { destruct (odict_mem ns0 n) eqn:E; [| reflexivity].
        apply odict_mem_true in E. contradiction. }
      unfold add_node_entry, isolated. simpl.
      rewrite odict_get_set, decide_True by reflexivity. simpl.
      rewrite odict_set_set.
      rewrite node_attrs_update_fresh by exact Hd. simpl.
      rewrite !odict_set_fresh by (rewrite ?isolated_keys; exact Hn).
      unfold odict_keys. rewrite !map_app. reflexivity. }
    rewrite Hstep. fold (add_nodes_from (@isolated D (ns0 ++ [(n, d)])) ns). rewrite IH.
    + rewrite <- app_assoc. reflexivity.
    + rewrite <- app_assoc. exact Hnd.
    + exact Hattrs.
Qed.

Lemma isolated_get_adj (ns : list (Node * node_attrs)) (a b : Node) :
  get_adj (_succ (@isolated D ns)) a b = None.
Proof.
  unfold get_adj. simpl.
  induction (odict_keys ns) as [|n l IH]; simpl; [reflexivity |].
  destruct (decide (n = a)); [reflexivity | exact IH].
Qed.

Lemma isolated_nodup_adj (ns : list (Node * node_attrs)) :
  NoDup (odict_keys ns) -> nodup_adj (_succ (@isolated D ns)).
Proof.
  intros Hnd. split; simpl.
  - rewrite isolated_keys. exact Hnd.
  - intros u nbrs Hin. apply list_elem_of_fmap in Hin as (n & [= -> ->] & _). constructor.
Qed.

End Adjacency.

(** *** The copy is a well-formed graph *)

Section Symmetric.
Context {D : Type} `{EqDecision D}.
Implicit Types (g : nxgraph D).

Lemma get_adj_elem (adj : list (Node * list (Node * D))) (u v : Node) (d : D) :
  nodup_adj adj ->
  (get_adj adj u v = Some d <-> exists nbrs, (u, nbrs) ∈ adj /\ (v, d) ∈ nbrs).
Proof.
  intros [Hk Hin]. unfold get_adj. split.
  - destruct (odict_get adj u) as [nbrs|] eqn:E; simpl; [| discriminate].
    intros Hv. exists nbrs. split; apply odict_get_Some_elem; assumption.
  - intros (nbrs & Hu & Hv). rewrite (odict_get_NoDup _ _ _ Hk Hu). simpl.
    apply odict_get_NoDup; eauto.
Qed.

Lemma wf_adj_intro (ns : list Node) (adj radj : list (Node * list (Node * D))) :
  nodup_adj adj ->
  (forall u v d, get_adj adj u v = Some d -> v ∈ ns /\ get_adj radj v u = Some d) ->
  wf_adj ns adj radj = true.
Proof.
  intros Hnd Hall. unfold wf_adj. apply forallb_forall. intros [u nbrs] Hu.
  apply list_elem_of_In in Hu. apply andb_true_iff. split.
  - apply bool_decide_eq_true. apply (proj2 Hnd u nbrs Hu).
  - apply forallb_forall. intros [v d] Hv. apply list_elem_of_In in Hv.
    destruct (Hall u v d) as [H1 H2]; [apply get_adj_elem; eauto |].
    apply andb_true_iff. split; apply bool_decide_eq_true; assumption.
Qed.

Lemma consistent_wf_graph g : consistent g -> wf_graph g = true.
Proof.
  intros (Hn & Hs & Hp & Hns & Hnp & Hsym & Hends).
  unfold wf_graph. rewrite !andb_true_iff, !bool_decide_eq_true.
  repeat split; try assumption.
  - apply wf_adj_intro; [exact Hns |]. intros u v d Hd.
    split; [apply (Hends u v d Hd) | apply Hsym, Hd].
  - apply wf_adj_intro; [exact Hnp |]. intros v u d Hd.
    apply Hsym in Hd. split; [apply (Hends u v d Hd) | exact Hd].
Qed.

(** Storing one object under [_succ[u][v]] and [_pred[v][u]], for present
    nodes, keeps the invariant. *)
Lemma set_both_consistent g (u v : Node) (x : D) :
  consistent g -> u ∈ odict_keys (_node g) -> v ∈ odict_keys (_node g) ->
  consistent {| _node := _node g;
                _succ := set_adj (_succ g) u v x;
                _pred := set_adj (_pred g) v u x |}.
Proof.
  intros (Hn & Hs & Hp & Hns & Hnp & Hsym & Hends) Hu Hv. unfold consistent. simpl.
  split; [exact Hn |].
  split; [rewrite set_adj_keys by (rewrite Hs; exact Hu); exact Hs |].
  split; [rewrite set_adj_keys by (rewrite Hp; exact Hv); exact Hp |].
  split; [apply set_adj_nodup_adj, Hns |].
  split; [apply set_adj_nodup_adj, Hnp |]. split.
  - intros a b d. rewrite !get_adj_set_adj.
    destruct (decide (u = a /\ v = b)) as [[<- <-] | Hne].
    + rewrite decide_True by auto. reflexivity.
    + rewrite decide_False by tauto. apply Hsym.
  - intros a b d. rewrite get_adj_set_adj.
    destruct (decide (u = a /\ v = b)) as [[<- <-] | Hne]; [auto | apply Hends].
Qed.

Lemma isolated_consistent (ns : list (Node * node_attrs)) :
  NoDup (odict_keys ns) -> consistent (@isolated D ns).
Proof.
  intros Hnd. unfold consistent. simpl. rewrite !isolated_keys.
  split; [exact Hnd |]. split; [reflexivity |]. split; [reflexivity |].
  split; [apply (isolated_nodup_adj (D := D)), Hnd |].
  split; [apply (isolated_nodup_adj (D := D)), Hnd |].
  pose proof (isolated_get_adj (D := D) ns) as Hnone. simpl in Hnone.
  split; intros u v d; rewrite !Hnone; [split |]; discriminate.
Qed.

End Symmetric.

Lemma add_edge_consistent (g : nxgraph attrs) (u v : Node) (dd : attrs) :
  consistent g -> u ∈ odict_keys (_node g) -> v ∈ odict_keys (_node g) ->
  consistent (add_edge g u v dd) /\ _node (add_edge g u v dd) = _node g.
Proof.
  intros Hc Hu Hv. pose proof Hc as (_ & Hs & _).
  unfold add_edge. rewrite (ensure_node_present g u), (ensure_node_present g v)
    by (rewrite Hs; assumption).
  split; [apply set_both_consistent; assumption | reflexivity].
Qed.

Lemma add_edges_from_consistent (es : list (Node * Node * attrs)) :
  forall g : nxgraph attrs,
  consistent g ->
  (forall u v d, (u, v, d) ∈ es -> u ∈ odict_keys (_node g) /\ v ∈ odict_keys (_node g)) ->
  consistent (add_edges_from g es).
Proof.
  induction es as [|[[u v] dd] es IH]; intros g Hc Hends; [exact Hc |].
  destruct (Hends u v dd) as [Hu Hv]; [left |].
  destruct (add_edge_consistent g u v dd Hc Hu Hv) as [Hc' Hnode].
  change (add_edges_from g ((u, v, dd) :: es))
    with (add_edges_from (add_edge g u v dd) es).
  apply IH; [exact Hc' |]. intros u' v' d' Hin. rewrite Hnode.
  apply (Hends u' v' d'). right. exact Hin.
Qed.

Lemma add_multi_edge_consistent (g : nxgraph keydict) (u v : Node) (k : key) (dd : attrs) :
  consistent g -> u ∈ odict_keys (_node g) -> v ∈ odict_keys (_node g) ->
  consistent (add_multi_edge g u v k dd) /\ _node (add_multi_edge g u v k dd) = _node g.
Proof.
  intros Hc Hu Hv. pose proof Hc as (_ & Hs & _).
  unfold add_multi_edge. rewrite (ensure_node_present g u), (ensure_node_present g v)
    by (rewrite Hs; assumption).
  split; [apply set_both_consistent; assumption | reflexivity].
Qed.

Lemma add_multi_edges_from_consistent (es : list (Node * Node * key * attrs)) :
  forall g : nxgraph keydict,
  consistent g ->
  (forall u v k d, (u, v, k, d) ∈ es ->
     u ∈ odict_keys (_node g) /\ v ∈ odict_keys (_node g)) ->
  consistent (add_multi_edges_from g es).
Proof.
  induction es as [|[[[u v] k] dd] es IH]; intros g Hc Hends; [exact Hc |].
  destruct (Hends u v k dd) as [Hu Hv]; [left |].
  destruct (add_multi_edge_consistent g u v k dd Hc Hu Hv) as [Hc' Hnode].
  change (add_multi_edges_from g ((u, v, k, dd) :: es))
    with (add_multi_edges_from (add_multi_edge g u v k dd) es).
  apply IH; [exact Hc' |]. intros u' v' k' d' Hin. rewrite Hnode.
  apply (Hends u' v' k' d'). right. exact Hin.
Qed.

Lemma nodup_madj_wf_keydicts (g : nxgraph keydict) :
  nodup_madj (_succ g) -> wf_keydicts g = true.
Proof.
  intros [_ Hkd]. unfold wf_keydicts. apply forallb_forall. intros [u nbrs] Hu.
  apply forallb_forall. intros [v kd] Hv. apply bool_decide_eq_true.
  apply list_elem_of_In in Hu, Hv. eauto.
Qed.

Lemma wf_graph_nodup_adj {D} `{EqDecision D} (g : nxgraph D) :
  wf_graph g = true -> nodup_adj (_succ g).
Proof.
  intros Hwf. pose proof (wf_graph_inv g Hwf) as (Hn & Hs & _ & Hadj & _).
  split; [rewrite Hs; exact Hn |].
  intros u nbrs Hin. apply (wf_adj_entry _ _ _ _ _ Hadj Hin).
Qed.

Lemma wf_graph_endpoints {D} `{EqDecision D} (g : nxgraph D) (u v : Node)
    (nbrs : list (Node * D)) (x : D) :
  wf_graph g = true -> (u, nbrs) ∈ _succ g -> (v, x) ∈ nbrs ->
  u ∈ odict_keys (_node g) /\ v ∈ odict_keys (_node g).
Proof.
  intros Hwf Hu Hv. pose proof (wf_graph_inv g Hwf) as (_ & Hs & _ & Hadj & _).
  split.
  - rewrite <- Hs. apply (list_elem_of_fmap_2 fst) in Hu. exact Hu.
  - apply (proj2 (wf_adj_entry _ _ _ _ _ Hadj Hu) _ _ Hv).
Qed.

Lemma rfilterM_total {A} (f : A -> result bool) (l : list A) :
  (forall x, x ∈ l -> exists b, f x = Ok b) ->
  rfilterM f l = Ok (filter (fun x => f x = Ok true) l).
Proof.
  induction l as [|x l IH]; intros Hall; simpl; [reflexivity |].
  destruct (Hall x) as [b Hb]; [left |].
  rewrite Hb, IH by (intros y Hy; apply Hall; right; exact Hy). simpl.
  rewrite filter_cons. destruct b.
  - rewrite decide_True by exact Hb. reflexivity.
  - rewrite decide_False by congruence. reflexivity.
Qed.

Lemma rmapM_concat {A B} (f : A -> result (list B)) (g : A -> list B) (l : list A) :
  (forall x, x ∈ l -> f x = Ok (g x)) ->
  rbind (rmapM f l) (fun ys => Ok (concat ys)) = Ok (flat_map g l).
Proof.
  intros Hall.
  assert (rmapM f l = Ok (map g l)) as ->.
  { induction l as [|x l IH]; simpl; [reflexivity |].
    rewrite Hall by left. simpl. rewrite IH; [reflexivity |].
    intros y Hy. apply Hall. right. exact Hy. }
  simpl. rewrite flat_map_concat_map. reflexivity.
Qed.

Lemma filter_flat_map {A B} (P : B -> Prop) `{forall b, Decision (P b)}
    (g : A -> list B) (l : list A) :
  filter P (flat_map g l) = flat_map (fun x => filter P (g x)) l.
Proof.
  induction l as [|x l IH]; simpl; [reflexivity |].
  rewrite filter_app, IH. reflexivity.
Qed.

Lemma elem_of_flat_map {A B} (g : A -> list B) (l : list A) (y : B) :
  y ∈ flat_map g l <-> exists x, x ∈ l /\ y ∈ g x.
Proof.
  rewrite list_elem_of_In, in_flat_map. split; intros (x & Hx & Hy); exists x;
    rewrite ?list_elem_of_In in *; auto.
Qed.

(** *** Directed graphs *)


Lemma elem_of_edges_iff (g : nxgraph attrs) (u v : Node) (d : attrs) :
  (u, v, d) ∈ edges g <-> exists nbrs, (u, nbrs) ∈ _succ g /\ (v, d) ∈ nbrs.
Proof.
  unfold edges. rewrite elem_of_flat_map. split.
  - intros ([u' nbrs] & Hu & Hin).
    apply list_elem_of_fmap in Hin as ([v' d'] & [= -> -> ->] & Hv). eauto.
  - intros (nbrs & Hu & Hv). exists (u, nbrs). split; [exact Hu |].
    apply list_elem_of_fmap. exists (v, d). auto.
Qed.

Lemma elem_of_edges (g : nxgraph attrs) (u v : Node) (d : attrs) :
  nodup_adj (_succ g) ->
  ((u, v, d) ∈ edges g <-> get_adj (_succ g) u v = Some d).
Proof.
  intros [Hk Hin]. rewrite elem_of_edges_iff. unfold get_adj. split.
  - intros (nbrs & Hu & Hv).
    rewrite (odict_get_NoDup _ _ _ Hk Hu). simpl.
    apply odict_get_NoDup; eauto.
  - destruct (odict_get (_succ g) u) as [nbrs|] eqn:E; simpl; [| discriminate].
    intros Hv. exists nbrs. split; apply odict_get_Some_elem; assumption.
Qed.

Lemma view_edges_total (ok : Node -> Node -> list key -> result bool)
    (g : nxgraph attrs) :
  (forall u v d, (u, v, d) ∈ edges g -> exists b, ok u v [] = Ok b) ->
  view_edges ok g = Ok (filter (edge_kept ok) (edges g)).
Proof.
  intros Hall. unfold view_edges, edges. rewrite filter_flat_map.
  apply rmapM_concat. intros [u nbrs] Hu.
  rewrite rfilterM_total.
  - simpl. f_equal. clear Hu Hall.
    induction nbrs as [|[v d] nbrs IH]; simpl; [reflexivity |].
    rewrite !filter_cons. unfold edge_kept at 1. simpl.
    destruct (decide (ok u v [] = Ok true)); simpl; rewrite IH; reflexivity.
  - intros [v d] Hv. apply (Hall u v d). apply elem_of_edges_iff. eauto.
Qed.

Lemma attrs_update_no_attrs (dd : attrs) : attrs_update no_attrs dd = dd.
Proof. destruct dd as [[b|] [s|]]; reflexivity. Qed.

Lemma attrs_update_same (dd : attrs) : attrs_update dd dd = dd.
Proof. destruct dd as [[b|] [s|]]; reflexivity. Qed.

Lemma add_edge_present (g : nxgraph attrs) (u v : Node) (dd : attrs) :
  u ∈ odict_keys (_succ g) -> v ∈ odict_keys (_succ g) ->
  _node (add_edge g u v dd) = _node g /\
  _succ (add_edge g u v dd)
  = set_adj (_succ g) u v (attrs_update (default no_attrs (get_adj (_succ g) u v)) dd).
Proof.
  intros Hu Hv. unfold add_edge.
  rewrite (ensure_node_present g u Hu), (ensure_node_present g v Hv). auto.
Qed.

(** Adding edges between present nodes, where the graph has at most the
    same data for them already: the nodes stay, and the edges are the old
    ones and the added ones. *)
Lemma add_edges_from_spec (es : list (Node * Node * attrs)) :
  forall g : nxgraph attrs,
  (forall u v d, (u, v, d) ∈ es ->
     u ∈ odict_keys (_succ g) /\ v ∈ odict_keys (_succ g) /\
     (get_adj (_succ g) u v = None \/ get_adj (_succ g) u v = Some d)) ->
  (forall u v d d', (u, v, d) ∈ es -> (u, v, d') ∈ es -> d = d') ->
  nodup_adj (_succ g) ->
  _node (add_edges_from g es) = _node g /\
  nodup_adj (_succ (add_edges_from g es)) /\
  forall a b d,
    get_adj (_succ (add_edges_from g es)) a b = Some d <->
    (a, b, d) ∈ es \/ get_adj (_succ g) a b = Some d.
Proof.
  induction es as [|[[u v] dd] es IH]; intros g Hpre Hfun Hnd.
  - simpl. split; [reflexivity |]. split; [exact Hnd |].
    intros a b d. split; [auto |]. intros [Hin | ?]; [| assumption].
    apply elem_of_nil in Hin as [].
  - destruct (Hpre u v dd) as (Hu & Hv & Hold); [left |].
    destruct (add_edge_present g u v dd Hu Hv) as [Hnode Hsucc].
    assert (Hnew : attrs_update (default no_attrs (get_adj (_succ g) u v)) dd = dd).
    { destruct Hold as [-> | ->]; simpl;
        [apply attrs_update_no_attrs | apply attrs_update_same]. }
    rewrite Hnew in Hsucc.
    assert (Hget : forall a b,
      get_adj (_succ (add_edge g u v dd)) a b
      = if decide (u = a /\ v = b) then Some dd else get_adj (_succ g) a b).
    { intros a b. rewrite Hsucc. apply get_adj_set_adj. }
    change (add_edges_from g ((u, v, dd) :: es))
      with (add_edges_from (add_edge g u v dd) es).
    destruct (IH (add_edge g u v dd)) as (Hn' & Hnd' & Hiff).
    + intros u' v' d' Hin.
      destruct (Hpre u' v' d') as (Hu' & Hv' & Hold'); [right; exact Hin |].
      rewrite Hsucc, set_adj_keys by exact Hu. split; [exact Hu' |].
      split; [exact Hv' |]. rewrite <- Hsucc, Hget.
      destruct (decide (u = u' /\ v = v')) as [[<- <-] | _]; [| exact Hold'].
      right. f_equal. apply (Hfun u v); [left | right; exact Hin].
    + intros u' v' d1 d2 H1 H2. apply (Hfun u' v'); right; assumption.
    + rewrite Hsucc. apply set_adj_nodup_adj, Hnd.
    + split; [rewrite Hn'; exact Hnode |]. split; [exact Hnd' |].
      intros a b d. rewrite Hiff, Hget, elem_of_cons.
      destruct (decide (u = a /\ v = b)) as [[<- <-] | Hne].
      * split.
        -- intros [? | [= ->]]; auto.
        -- intros [[[= ->] | ?] | Hg]; auto.
           right. destruct Hold as [Hold | Hold]; congruence.
      * split.
        -- intros [? | ?]; auto.
        -- intros [[[= -> -> ->] | ?] | ?]; auto. exfalso. apply Hne. auto.
Qed.

(** The copy of a filtered view of a well-formed [DiGraph]: the nodes with
    their attributes, and exactly the edges the predicate keeps. *)
Lemma digraph_copy_spec (ok : Node -> Node -> list key -> result bool)
    (g : nxgraph attrs) :
  wf_graph g = true -> wf_node_attrs g = true ->
  let new := add_edges_from (add_nodes_from empty_graph (_node g))
               (filter (edge_kept ok) (edges g)) in
  _node new = _node g /\
  wf_graph new = true /\
  forall u v d, (u, v, d) ∈ edges new <-> (u, v, d) ∈ edges g /\ ok u v [] = Ok true.
Proof.
  intros Hwf Hattrs new.
  pose proof (wf_graph_inv g Hwf) as (Hnd & Hs & _).
  pose proof (wf_graph_nodup_adj g Hwf) as Hadj.
  assert (Hiso : add_nodes_from (@empty_graph attrs) (_node g) = isolated (_node g)).
  { apply (add_nodes_from_isolated (D := attrs) [] (_node g)); [exact Hnd |].
    unfold wf_node_attrs in Hattrs. rewrite forallb_forall in Hattrs.
    apply Forall_forall. intros [n d] Hin. apply list_elem_of_In in Hin.
    specialize (Hattrs _ Hin). simpl in Hattrs.
    apply bool_decide_eq_true in Hattrs. exact Hattrs. }
  destruct (add_edges_from_spec (filter (edge_kept ok) (edges g)) (isolated (_node g)))
    as (Hnode & Hnd' & Hiff).
  - intros u v d Hin. apply list_elem_of_filter in Hin as [_ Hin].
    apply elem_of_edges_iff in Hin as (nbrs & Hu & Hv).
    destruct (wf_graph_endpoints g u v nbrs d Hwf Hu Hv) as [Hun Hvn].
    simpl. rewrite isolated_keys. split; [exact Hun |]. split; [exact Hvn |].
    left. apply (isolated_get_adj (D := attrs)).
  - intros u v d d' H1 H2.
    apply list_elem_of_filter in H1 as [_ H1]. apply list_elem_of_filter in H2 as [_ H2].
    apply (elem_of_edges g u v _ Hadj) in H1. apply (elem_of_edges g u v _ Hadj) in H2.
    congruence.
  - apply isolated_nodup_adj. exact Hnd.
  - subst new. rewrite Hiso. split; [exact Hnode |]. split.
    { apply consistent_wf_graph, add_edges_from_consistent;
        [apply isolated_consistent, Hnd |].
      intros u v d Hin. apply list_elem_of_filter in Hin as [_ Hin].
      apply elem_of_edges_iff in Hin as (nbrs & Hu & Hv).
      apply (wf_graph_endpoints g u v nbrs d Hwf Hu Hv). }
    intros u v d. rewrite (elem_of_edges _ u v d Hnd'), Hiff.
    rewrite (isolated_get_adj (D := attrs)), list_elem_of_filter. unfold edge_kept. simpl.
    split; [intros [[? ?] | [=]]; auto | intros [? ?]; auto].
Qed.

(** *** Directed multigraphs *)


Lemma elem_of_multi_edges_iff (g : nxgraph keydict) (u v : Node) (k : key) (d : attrs) :
  (u, v, k, d) ∈ multi_edges g <->
  exists nbrs kd, (u, nbrs) ∈ _succ g /\ (v, kd) ∈ nbrs /\ (k, d) ∈ kd.
Proof.
  unfold multi_edges. rewrite elem_of_flat_map. split.
  - intros ([u' nbrs] & Hu & Hin). apply elem_of_flat_map in Hin as ([v' kd] & Hv & Hin).
    apply list_elem_of_fmap in Hin as ([k' d'] & [= -> -> -> ->] & Hk). eauto.
  - intros (nbrs & kd & Hu & Hv & Hk). exists (u, nbrs). split; [exact Hu |].
    apply elem_of_flat_map. exists (v, kd). split; [exact Hv |].
    apply list_elem_of_fmap. exists (k, d). auto.
Qed.

Lemma elem_of_multi_edges (g : nxgraph keydict) (u v : Node) (k : key) (d : attrs) :
  nodup_madj (_succ g) ->
  ((u, v, k, d) ∈ multi_edges g <-> get_madj (_succ g) u v k = Some d).
Proof.
  intros [[Hk Hin] Hkd]. rewrite elem_of_multi_edges_iff. unfold get_madj, get_adj. split.
  - intros (nbrs & kd & Hu & Hv & Hkey).
    rewrite (odict_get_NoDup _ _ _ Hk Hu). simpl.
    rewrite (odict_get_NoDup _ _ _ (Hin _ _ Hu) Hv). simpl.
    apply odict_get_NoDup; eauto.
  - destruct (odict_get (_succ g) u) as [nbrs|] eqn:Eu; simpl; [| discriminate].
    destruct (odict_get nbrs v) as [kd|] eqn:Ev; simpl; [| discriminate].
    intros Hkey. exists nbrs, kd. repeat split; apply odict_get_Some_elem; assumption.
Qed.

Lemma view_multi_edges_total (ok : Node -> Node -> list key -> result bool)
    (g : nxgraph keydict) :
  (forall u v k d, (u, v, k, d) ∈ multi_edges g -> exists b, ok u v [k] = Ok b) ->
  view_multi_edges ok g = Ok (filter (multi_edge_kept ok) (multi_edges g)).
Proof.
  intros Hall. unfold view_multi_edges, multi_edges. rewrite filter_flat_map.
  apply rmapM_concat. intros [u nbrs] Hu. rewrite filter_flat_map.
  apply rmapM_concat. intros [v kd] Hv.
  rewrite rfilterM_total.
  - simpl. f_equal. clear Hu Hv Hall.
    induction kd as [|[k d] kd IH]; simpl; [reflexivity |].
    rewrite !filter_cons. unfold multi_edge_kept at 1. simpl.
    destruct (decide (ok u v [k] = Ok true)); simpl; rewrite IH; reflexivity.
  - intros [k d] Hk. apply (Hall u v k d). apply elem_of_multi_edges_iff. eauto.
Qed.

Lemma get_madj_set_adj (adj : list (Node * list (Node * keydict))) (u v : Node)
    (k : key) (x : attrs) (a b : Node) (k' : key) :
  get_madj (set_adj adj u v (odict_set (default [] (get_adj adj u v)) k x)) a b k'
  = if decide (u = a /\ v = b /\ k = k') then Some x else get_madj adj a b k'.
Proof.
  unfold get_madj. rewrite get_adj_set_adj.
  destruct (decide (u = a /\ v = b)) as [[<- <-] | Hne]; simpl.
  - rewrite odict_get_set. destruct (decide (k = k')) as [<- | Hk].
    + rewrite decide_True by auto. reflexivity.
    + rewrite decide_False by tauto. destruct (get_adj adj u v); reflexivity.
  - rewrite decide_False by tauto. reflexivity.
Qed.

Lemma set_adj_nodup_madj (adj : list (Node * list (Node * keydict))) (u v : Node)
    (kd : keydict) :
  nodup_madj adj -> NoDup (odict_keys kd) -> nodup_madj (set_adj adj u v kd).
Proof.
  intros [Hnd Hkd] Hnew. split; [apply set_adj_nodup_adj, Hnd |].
  intros a nbrs b kd' Ha Hb. unfold set_adj in Ha.
  apply elem_of_odict_set in Ha as [Ha | [_ ->]]; [eauto |].
  apply elem_of_odict_set in Hb as [Hb | [_ ->]]; [| exact Hnew].
  destruct (odict_get adj u) as [nbrs|] eqn:E; simpl in Hb.
  - apply odict_get_Some_elem in E. eauto.
  - apply elem_of_nil in Hb as [].
Qed.

Lemma keydict_NoDup (adj : list (Node * list (Node * keydict))) (u v : Node) :
  nodup_madj adj -> NoDup (odict_keys (default [] (get_adj adj u v))).
Proof.
  intros [_ Hkd]. unfold get_adj.
  destruct (odict_get adj u) as [nbrs|] eqn:Eu; simpl; [| constructor].
  destruct (odict_get nbrs v) as [kd|] eqn:Ev; simpl; [| constructor].
  apply odict_get_Some_elem in Eu, Ev. eauto.
Qed.

Lemma add_multi_edge_present (g : nxgraph keydict) (u v : Node) (k : key) (dd : attrs) :
  u ∈ odict_keys (_succ g) -> v ∈ odict_keys (_succ g) ->
  _node (add_multi_edge g u v k dd) = _node g /\
  _succ (add_multi_edge g u v k dd)
  = set_adj (_succ g) u v
      (odict_set (default [] (get_adj (_succ g) u v)) k
         (attrs_update (default no_attrs (get_madj (_succ g) u v k)) dd)).
Proof.
  intros Hu Hv. unfold add_multi_edge.
  rewrite (ensure_node_present g u Hu), (ensure_node_present g v Hv).
  split; [reflexivity |]. simpl. unfold get_madj.
  destruct (get_adj (_succ g) u v); reflexivity.
Qed.

Lemma add_multi_edges_from_spec (es : list (Node * Node * key * attrs)) :
  forall g : nxgraph keydict,
  (forall u v k d, (u, v, k, d) ∈ es ->
     u ∈ odict_keys (_succ g) /\ v ∈ odict_keys (_succ g) /\
     (get_madj (_succ g) u v k = None \/ get_madj (_succ g) u v k = Some d)) ->
  (forall u v k d d', (u, v, k, d) ∈ es -> (u, v, k, d') ∈ es -> d = d') ->
  nodup_madj (_succ g) ->
  _node (add_multi_edges_from g es) = _node g /\
  nodup_madj (_succ (add_multi_edges_from g es)) /\
  forall a b k d,
    get_madj (_succ (add_multi_edges_from g es)) a b k = Some d <->
    (a, b, k, d) ∈ es \/ get_madj (_succ g) a b k = Some d.
Proof.
  induction es as [|[[[u v] k0] dd] es IH]; intros g Hpre Hfun Hnd.
  - simpl. split; [reflexivity |]. split; [exact Hnd |].
    intros a b k d. split; [auto |]. intros [Hin | ?]; [| assumption].
    apply elem_of_nil in Hin as [].
  - destruct (Hpre u v k0 dd) as (Hu & Hv & Hold); [left |].
    destruct (add_multi_edge_present g u v k0 dd Hu Hv) as [Hnode Hsucc].
    assert (Hnew : attrs_update (default no_attrs (get_madj (_succ g) u v k0)) dd = dd).
    { destruct Hold as [-> | ->]; simpl;
        [apply attrs_update_no_attrs | apply attrs_update_same]. }
    rewrite Hnew in Hsucc.
    assert (Hget : forall a b k,
      get_madj (_succ (add_multi_edge g u v k0 dd)) a b k
      = if decide (u = a /\ v = b /\ k0 = k) then Some dd else get_madj (_succ g) a b k).
    { intros a b k. rewrite Hsucc. apply get_madj_set_adj. }
    change (add_multi_edges_from g ((u, v, k0, dd) :: es))
      with (add_multi_edges_from (add_multi_edge g u v k0 dd) es).
    destruct (IH (add_multi_edge g u v k0 dd)) as (Hn' & Hnd' & Hiff).
    + intros u' v' k' d' Hin.
      destruct (Hpre u' v' k' d') as (Hu' & Hv' & Hold'); [right; exact Hin |].
      rewrite Hsucc, set_adj_keys by exact Hu. split; [exact Hu' |].
      split; [exact Hv' |]. rewrite <- Hsucc, Hget.
      destruct (decide (u = u' /\ v = v' /\ k0 = k')) as [(<- & <- & <-) | _];
        [| exact Hold'].
      right. f_equal. apply (Hfun u v k0); [left | right; exact Hin].
    + intros u' v' k' d1 d2 H1 H2. apply (Hfun u' v' k'); right; assumption.
    + rewrite Hsucc. apply set_adj_nodup_madj; [exact Hnd |].
      apply odict_keys_set_NoDup, keydict_NoDup, Hnd.
    + split; [rewrite Hn'; exact Hnode |]. split; [exact Hnd' |].
      intros a b k d. rewrite Hiff, Hget, elem_of_cons.
      destruct (decide (u = a /\ v = b /\ k0 = k)) as [(<- & <- & <-) | Hne].
      * split.
        -- intros [? | [= ->]]; auto.
        -- intros [[[= ->] | ?] | Hg]; auto.
           right. destruct Hold as [Hold | Hold]; congruence.
      * split.
        -- intros [? | ?]; auto.
        -- intros [[[= -> -> -> ->] | ?] | ?]; auto. exfalso. apply Hne. auto.
Qed.

Lemma wf_keydicts_nodup_madj (g : nxgraph keydict) :
  wf_graph g = true -> wf_keydicts g = true -> nodup_madj (_succ g).
Proof.
  intros Hwf Hkd. split; [apply wf_graph_nodup_adj, Hwf |].
  intros u nbrs v kd Hu Hv. unfold wf_keydicts in Hkd.
  rewrite forallb_forall in Hkd. apply list_elem_of_In in Hu.
  specialize (Hkd _ Hu). simpl in Hkd. rewrite forallb_forall in Hkd.
  apply list_elem_of_In in Hv. specialize (Hkd _ Hv). simpl in Hkd.
  apply bool_decide_eq_true in Hkd. exact Hkd.
Qed.

Lemma isolated_get_madj (ns : list (Node * node_attrs)) (a b : Node) (k : key) :
  get_madj (_succ (isolated ns)) a b k = None.
Proof. unfold get_madj. rewrite (isolated_get_adj (D := keydict)). reflexivity. Qed.

Lemma isolated_nodup_madj (ns : list (Node * node_attrs)) :
  NoDup (odict_keys ns) -> nodup_madj (_succ (@isolated keydict ns)).
Proof.
  intros Hnd. split; [apply isolated_nodup_adj, Hnd |].
  intros u nbrs v kd Hu Hv. simpl in Hu.
  apply list_elem_of_fmap in Hu as (n & [= -> ->] & _). apply elem_of_nil in Hv as [].
Qed.

Lemma wf_node_attrs_Forall {D} (g : nxgraph D) :
  wf_node_attrs g = true -> Forall (fun '(_, d) => NoDup (odict_keys d)) (_node g).
Proof.
  unfold wf_node_attrs. rewrite forallb_forall. intros Hattrs.
  apply Forall_forall. intros [n d] Hin. apply list_elem_of_In in Hin.
  specialize (Hattrs _ Hin). simpl in Hattrs.
  apply bool_decide_eq_true in Hattrs. exact Hattrs.
Qed.

(** The copy of a filtered view of a well-formed [MultiDiGraph]. *)
Lemma multidigraph_copy_spec (ok : Node -> Node -> list key -> result bool)
    (g : nxgraph keydict) :
  wf_graph g = true -> wf_node_attrs g = true -> wf_keydicts g = true ->
  let new := add_multi_edges_from (add_nodes_from empty_graph (_node g))
               (filter (multi_edge_kept ok) (multi_edges g)) in
  _node new = _node g /\
  wf_graph new = true /\ wf_keydicts new = true /\
  forall u v k d,
    (u, v, k, d) ∈ multi_edges new <-> (u, v, k, d) ∈ multi_edges g /\ ok u v [k] = Ok true.
Proof.
  intros Hwf Hattrs Hkd new.
  pose proof (wf_graph_inv g Hwf) as (Hnd & Hs & _).
  pose proof (wf_keydicts_nodup_madj g Hwf Hkd) as Hadj.
  assert (Hiso : add_nodes_from (@empty_graph keydict) (_node g) = isolated (_node g)).
  { apply (add_nodes_from_isolated (D := keydict) [] (_node g)); [exact Hnd |].
    apply wf_node_attrs_Forall, Hattrs. }
  destruct (add_multi_edges_from_spec (filter (multi_edge_kept ok) (multi_edges g))
              (isolated (_node g))) as (Hnode & Hnd' & Hiff).
  - intros u v k d Hin. apply list_elem_of_filter in Hin as [_ Hin].
    apply elem_of_multi_edges_iff in Hin as (nbrs & kd & Hu & Hv & _).
    destruct (wf_graph_endpoints g u v nbrs kd Hwf Hu Hv) as [Hun Hvn].
    simpl. rewrite isolated_keys. split; [exact Hun |]. split; [exact Hvn |].
    left. apply isolated_get_madj.
  - intros u v k d d' H1 H2.
    apply list_elem_of_filter in H1 as [_ H1]. apply list_elem_of_filter in H2 as [_ H2].
    apply (elem_of_multi_edges g u v k _ Hadj) in H1.
    apply (elem_of_multi_edges g u v k _ Hadj) in H2. congruence.
  - apply isolated_nodup_madj. exact Hnd.
  - subst new. rewrite Hiso. split; [exact Hnode |]. split.
    { apply consistent_wf_graph, add_multi_edges_from_consistent;
        [apply isolated_consistent, Hnd |].
      intros u v k d Hin. apply list_elem_of_filter in Hin as [_ Hin].
      apply elem_of_multi_edges_iff in Hin as (nbrs & kd & Hu & Hv & _).
      apply (wf_graph_endpoints g u v nbrs kd Hwf Hu Hv). }
    split; [apply nodup_madj_wf_keydicts, Hnd' |].
    intros u v k d. rewrite (elem_of_multi_edges _ u v k d Hnd'), Hiff.
    rewrite isolated_get_madj, list_elem_of_filter. unfold multi_edge_kept. simpl.
    split; [intros [[? ?] | [=]]; auto | intros [? ?]; auto].
Qed.

(** ** Subgraph extraction *)

Lemma elem_of_graph_edges_DiGraph (g : nxgraph attrs) (u v : Node) (args : list key)
    (d : attrs) :
  (u, v, args, d) ∈ graph_edges (DiGraph g) <-> args = [] /\ (u, v, d) ∈ edges g.
Proof.
  simpl. rewrite list_elem_of_fmap. split.
  - intros ([[u' v'] d'] & [= -> -> -> ->] & Hin). auto.
  - intros [-> Hin]. exists (u, v, d). auto.
Qed.

Lemma elem_of_graph_edges_MultiDiGraph (g : nxgraph keydict) (u v : Node)
    (args : list key) (d : attrs) :
  (u, v, args, d) ∈ graph_edges (MultiDiGraph g) <->
  exists k, args = [k] /\ (u, v, k, d) ∈ multi_edges g.
Proof.
  simpl. rewrite list_elem_of_fmap. split.
  - intros ([[[u' v'] k] d'] & [= -> -> -> ->] & Hin). eauto.
  - intros (k & -> & Hin). exists (u, v, k, d). auto.
Qed.

Lemma lookup_snoc_ne {A} (h : list A) (x : A) (l : nat) :
  l <> length h -> (h ++ [x]) !! l = h !! l.
Proof.
  intros Hl. destruct (decide (l < length h)%nat) as [Hlt | Hge].
  - apply lookup_app_l. exact Hlt.
  - rewrite !lookup_ge_None_2; [reflexivity | lia |].
    rewrite length_app. simpl. lia.
Qed.

(** What a well-formed graph object becomes under a predicate that answers
    on each of its edges. *)
Lemma view_copy_spec (w : world) (g : loc) (f : option edge_filter) (gr : graph) :
  heap w !! g = Some gr -> wf_object gr = true ->
  (forall u v args d, (u, v, args, d) ∈ graph_edges gr ->
     exists b, call_EDGE_OK w f u v args = Ok b) ->
  exists new_gr,
    view_copy (subgraph_view g f) w = (set_heap (heap w ++ [new_gr]) w, Ok (length (heap w))) /\
    same_class gr new_gr /\
    wf_object new_gr = true /\
    graph_nodes new_gr = graph_nodes gr /\
    forall u v args d,
      (u, v, args, d) ∈ graph_edges new_gr <->
      (u, v, args, d) ∈ graph_edges gr /\ call_EDGE_OK w f u v args = Ok true.
Proof.
  intros Hg Hwf Htotal.
  unfold view_copy, mbind, M_bind, get_world, lift, alloc. simpl. rewrite Hg.
  destruct gr as [g0 | g0]; simpl in Hwf.
  - apply andb_true_iff in Hwf as [Hwf Hattrs].
    rewrite view_edges_total.
    + destruct (digraph_copy_spec (call_EDGE_OK w f) g0 Hwf Hattrs)
        as (Hnode & Hwf' & Hedges).
      eexists (DiGraph _). split; [reflexivity |]. split; [exact I |].
      split.
      { simpl. rewrite Hwf'. unfold wf_node_attrs. rewrite Hnode. exact Hattrs. }
      split; [exact Hnode |].
      intros u v args d. rewrite !elem_of_graph_edges_DiGraph, Hedges.
      split; [intros (-> & ? & ?); auto | intros [[-> ?] ?]; auto].
    + intros u v d Hin. apply (Htotal u v [] d).
      apply elem_of_graph_edges_DiGraph. auto.
  - apply andb_true_iff in Hwf as [Hwf Hkd].
    apply andb_true_iff in Hwf as [Hwf Hattrs].
    rewrite view_multi_edges_total.
    + destruct (multidigraph_copy_spec (call_EDGE_OK w f) g0 Hwf Hattrs Hkd)
        as (Hnode & Hwf' & Hkd' & Hedges).
      eexists (MultiDiGraph _). split; [reflexivity |]. split; [exact I |].
      split.
      { simpl. rewrite Hwf', Hkd'. unfold wf_node_attrs. rewrite Hnode.
        rewrite andb_true_r. exact Hattrs. }
      split; [exact Hnode |].
      intros u v args d. rewrite !elem_of_graph_edges_MultiDiGraph. split.
      * intros (k & -> & Hin). apply Hedges in Hin as [? ?]. eauto.
      * intros [(k & -> & Hin) Hok]. exists k. split; [reflexivity |].
        apply Hedges. auto.
    + intros u v k d Hin. apply (Htotal u v [k] d).
      apply elem_of_graph_edges_MultiDiGraph. eauto.
Qed.



(** The filtered copy of the example graph keeps the two edges backed by
    internal evidence. *)
Example get_subgraph_example :
  snd (get_subgraph 0%nat "filter_to_internal_edges" (module_loaded [DiGraph example_graph]))
  = Ok 1%nat /\
  (graph_edges <$>
     heap (fst (get_subgraph 0%nat "filter_to_internal_edges"
                  (module_loaded [DiGraph example_graph]))) !! 1%nat)
  = Some [(NStr "N", NStr "Z", [], {| belief := None; statements := evidence [true] |});
          (NStr "N", NStr "X", [],
           {| belief := Some (9 # 10)%Q; statements := evidence [false; true] |})].
Proof. vm_compute. split; reflexivity. Qed.

Lemma rmapM_concat_raise {A B} (f : A -> result (list B)) (g : A -> list B)
    (e : exn) (l : list A) :
  (forall x, f x = match g x with [] => Ok [] | _ => Raise e end) ->
  rbind (rmapM f l) (fun ys => Ok (concat ys))
  = match flat_map g l with [] => Ok [] | _ => Raise e end.
Proof.
  intros Hf. induction l as [|x l IH]; simpl; [reflexivity |].
  rewrite Hf. destruct (g x) as [|y ys]; simpl; [| reflexivity].
  destruct (rmapM f l) as [yss | e']; simpl in *; exact IH.
Qed.

Lemma view_edges_raise (e : exn) (g : nxgraph attrs) :
  view_edges (fun _ _ _ => Raise e) g
  = match edges g with [] => Ok [] | _ => Raise e end.
Proof.
  unfold view_edges, edges. apply rmapM_concat_raise.
  intros [u [|[v d] nbrs]]; reflexivity.
Qed.

Lemma view_multi_edges_raise (e : exn) (g : nxgraph keydict) :
  view_multi_edges (fun _ _ _ => Raise e) g
  = match multi_edges g with [] => Ok [] | _ => Raise e end.
Proof.
  unfold view_multi_edges, multi_edges. apply rmapM_concat_raise.
  intros [u nbrs]. apply rmapM_concat_raise.
  intros [v [|[k d] kd]]; reflexivity.
Qed.

(** C4 as stated fails: with a name that is not registered the lookup gives
    [None], the view calls it on the first edge, and the call raises. *)
Lemma get_subgraph_unregistered_raises :
  let w := module_loaded [DiGraph example_graph] in
  edge_filter_functions w !! "no_such_filter" = None /\
  snd (get_subgraph 0%nat "no_such_filter" w) = Raise TypeError.
Proof. vm_compute. split; reflexivity. Qed.

(** C4, amended.  With a name that is not registered, [get_subgraph] raises
    [TypeError] on every graph that has an edge, leaving [G] bound to the
    graph and the store as it was; only on a graph without edges does it
    return a copy, with the same nodes and no edge. *)
Theorem get_subgraph_unregistered (w : world) (g : loc) (name : string) (gr : graph) :
  edge_filter_functions w !! name = None ->
  heap w !! g = Some gr ->
  (graph_edges gr <> [] ->
   get_subgraph g name w = (set_G (Some g) w, Raise TypeError)) /\
  (graph_edges gr = [] -> wf_object gr = true ->
   exists new_gr,
     get_subgraph g name w
     = (set_heap (heap w ++ [new_gr]) (set_G (Some g) w), Ok (length (heap w))) /\
     same_class gr new_gr /\
     graph_nodes new_gr = graph_nodes gr /\
     graph_edges new_gr = []).
Proof.
  intros Hf Hg. rewrite get_subgraph_unfold, Hf. split.
  - intros Hne.
    unfold view_copy, mbind, M_bind, get_world, lift, alloc. simpl. rewrite Hg.
    destruct gr as [g0 | g0]; simpl in Hne.
    + change (call_EDGE_OK (set_G (Some g) w) None) with (fun (_ _ : Node) (_ : list key) => @Raise bool TypeError).
      rewrite view_edges_raise. destruct (edges g0); [contradiction | reflexivity].
    + change (call_EDGE_OK (set_G (Some g) w) None) with (fun (_ _ : Node) (_ : list key) => @Raise bool TypeError).
      rewrite view_multi_edges_raise. destruct (multi_edges g0); [contradiction | reflexivity].
  - intros Hnil Hwf.
    destruct (view_copy_spec (set_G (Some g) w) g None gr Hg Hwf)
      as (new_gr & Hrun & Hclass & _ & Hnodes & Hedges).
    { intros u v args d Hin. rewrite Hnil in Hin. apply elem_of_nil in Hin as []. }
    exists new_gr. split; [exact Hrun |]. split; [exact Hclass |].
    split; [exact Hnodes |].
    destruct (graph_edges new_gr) as [|[[[u v] args] d] es] eqn:E; [reflexivity |].
    exfalso. destruct (proj1 (Hedges u v args d)) as [_ Hok]; [left |].
    discriminate Hok.
Qed.

Lemma get_subgraph_unregistered_witness :
  let w := module_loaded [DiGraph example_graph] in
  edge_filter_functions w !! "no_such_filter" = None /\
  heap w !! 0%nat = Some (DiGraph example_graph) /\
  graph_edges (DiGraph example_graph) <> [] /\
  get_subgraph 0%nat "no_such_filter" w = (set_G (Some 0%nat) w, Raise TypeError).
Proof.
  intros w.
  assert (Hf : edge_filter_functions w !! "no_such_filter" = None)
    by (vm_compute; reflexivity).
  assert (Hne : graph_edges (DiGraph example_graph) <> [])
    by (vm_compute; discriminate).
  split; [exact Hf |]. split; [reflexivity |]. split; [exact Hne |].
  apply (proj1 (get_subgraph_unregistered w 0%nat "no_such_filter"
                  (DiGraph example_graph) Hf eq_refl) Hne).
Defined.

(** ** The built-in predicate as the filter of a subgraph *)

Lemma edge_of_graph_edges (gr : graph) (u v : Node) (args : list key) (d : attrs) :
  wf_object gr = true -> (u, v, args, d) ∈ graph_edges gr ->
  edge_of gr u v args = Ok (AttrDict d).
Proof.
  intros Hwf Hin. destruct gr as [g | g]; simpl in Hwf.
  - apply andb_true_iff in Hwf as [Hwf _].
    apply elem_of_graph_edges_DiGraph in Hin as [-> Hin].
    apply (elem_of_edges g u v d (wf_graph_nodup_adj g Hwf)) in Hin.
    unfold get_adj in Hin. simpl. unfold odict_item.
    destruct (odict_get (_succ g) u) as [nbrs|]; simpl in *; [| discriminate].
    rewrite Hin. reflexivity.
  - apply andb_true_iff in Hwf as [Hwf Hkd].
    apply andb_true_iff in Hwf as [Hwf _].
    apply elem_of_graph_edges_MultiDiGraph in Hin as (k & -> & Hin).
    apply (elem_of_multi_edges g u v k d (wf_keydicts_nodup_madj g Hwf Hkd)) in Hin.
    unfold get_madj, get_adj in Hin. simpl. unfold odict_item.
    destruct (odict_get (_succ g) u) as [nbrs|]; simpl in *; [| discriminate].
    destruct (odict_get nbrs v) as [kd|]; simpl in *; [| discriminate].
    unfold odict_item. rewrite Hin. reflexivity.
Qed.

(** With [G] bound to a well-formed graph whose edges carry flagged
    evidence, [filter_to_internal_edges] answers on every edge of it, and
    answers true exactly on the edges with a record of internal evidence. *)
Lemma filter_to_internal_edges_on_edges (heap : list graph) (l : loc) (gr : graph)
    (u v : Node) (args : list key) (d : attrs) :
  heap !! l = Some gr -> wf_object gr = true -> evidence_flagged gr ->
  (u, v, args, d) ∈ graph_edges gr ->
  exists b,
    __call__ filter_to_internal_edges heap (Some l) u v args = Ok b /\
    (b = true <->
     exists stmts s, statements d = Some stmts /\ s ∈ stmts /\ internal s = Some true).
Proof.
  intros Hl Hwf Hflag Hin.
  destruct (Hflag u v args d Hin) as (stmts & Hstmts & Hall).
  destruct (any_internal_spec stmts Hall) as (b & Hb & Hiff).
  exists b. split.
  - simpl. unfold filter_to_internal_edges_body.
    rewrite Hl, (edge_of_graph_edges gr u v args d Hwf Hin). simpl.
    rewrite Hstmts. exact Hb.
  - rewrite Hiff. split.
    + intros (s & Hs & Ht). eauto.
    + intros (stmts' & s & Hst & Hs & Ht). rewrite Hstmts in Hst.
      injection Hst as <-. eauto.
Qed.

(** Extraction with the built-in predicate never raises on such a graph,
    and keeps exactly the edges that have internal evidence. *)
Lemma get_subgraph_internal_edges (w : world) (g : loc) (gr : graph) :
  edge_filter_functions w !! "filter_to_internal_edges" = Some filter_to_internal_edges ->
  heap w !! g = Some gr -> wf_object gr = true -> evidence_flagged gr ->
  exists new_gr,
    get_subgraph g "filter_to_internal_edges" w
    = (set_heap (heap w ++ [new_gr]) (set_G (Some g) w), Ok (length (heap w))) /\
    graph_nodes new_gr = graph_nodes gr /\
    forall u v args d,
      (u, v, args, d) ∈ graph_edges new_gr <->
      (u, v, args, d) ∈ graph_edges gr /\
      exists stmts s, statements d = Some stmts /\ s ∈ stmts /\ internal s = Some true.
Proof.
  intros Hf Hg Hwf Hflag.
  destruct (view_copy_spec (set_G (Some g) w) g (Some filter_to_internal_edges) gr Hg Hwf)
    as (new_gr & Hrun & _ & _ & Hnodes & Hedges).
  { intros u v args d Hin.
    destruct (filter_to_internal_edges_on_edges (heap w) g gr u v args d Hg Hwf Hflag Hin)
      as (b & Hb & _). eauto. }
  exists new_gr. rewrite get_subgraph_unfold, Hf.
  split; [exact Hrun |]. split; [exact Hnodes |].
  intros u v args d. rewrite Hedges. split.
  - intros [Hin Hok]. split; [exact Hin |].
    destruct (filter_to_internal_edges_on_edges (heap w) g gr u v args d Hg Hwf Hflag Hin)
      as (b & Hb & Hiff).
    apply Hiff. simpl in Hok, Hb. congruence.
  - intros [Hin Hex]. split; [exact Hin |].
    destruct (filter_to_internal_edges_on_edges (heap w) g gr u v args d Hg Hwf Hflag Hin)
      as (b & Hb & Hiff).
    apply Hiff in Hex. subst b. exact Hb.
Qed.

(** ** What the neighbour search returns *)

(** What a call with a non-empty allow-list returns. *)
Lemma get_sorted_neighbors_restricted (S : set_order) (G : nxgraph attrs)
    (node : Node) (reverse : bool) (allowed : list edge) :
  allowed <> [] -> wf_graph G = true -> has_node G node = true ->
  exists nbrs l,
    neighbors_of G node reverse = Ok nbrs /\
    get_sorted_neighbors S G node reverse (Some allowed) = Ok l /\
    NoDup l /\
    (forall n, n ∈ l <-> n ∈ nbrs /\ connecting node reverse n ∈ allowed) /\
    belief_descending G node reverse l.
Proof.
  intros Hne Hwf Hn.
  destruct (neighbors_connected G node reverse Hwf Hn) as (nbrs & Hnb & Hkey).
  destruct (incident_edges G node reverse Hwf Hn) as (nbrs' & Hnb' & Hes).
  rewrite Hnb in Hnb'. injection Hnb' as <-. exists nbrs.
  pose (pick := if reverse then @fst Node Node else @snd Node Node).
  pose (common := set_intersection S (map (connecting node reverse) nbrs) allowed).
  assert (Hcommon : forall e, e ∈ common <->
            e ∈ map (connecting node reverse) nbrs /\ e ∈ allowed)
    by apply set_intersection_spec.
  assert (Hcands : forall n, n ∈ map pick common <->
            n ∈ nbrs /\ connecting node reverse n ∈ allowed).
  { intro n. rewrite list_elem_of_fmap. unfold pick. split.
    - intros (e & -> & He). apply Hcommon in He as [He Ha].
      apply list_elem_of_fmap in He as (m & -> & Hm).
      rewrite endpoint_connecting. auto.
    - intros [Hm Ha]. exists (connecting node reverse n).
      rewrite endpoint_connecting. split; [reflexivity |].
      apply Hcommon. split; [| exact Ha]. apply list_elem_of_fmap. eauto. }
  assert (Hnd : NoDup (map pick common)).
  { apply NoDup_fmap_2_strong; [| apply set_intersection_NoDup].
    intros e1 e2 H1 H2 Heq. unfold pick in Heq.
    apply Hcommon in H1 as [H1 _]. apply Hcommon in H2 as [H2 _].
    apply list_elem_of_fmap in H1 as (m1 & -> & _).
    apply list_elem_of_fmap in H2 as (m2 & -> & _).
    rewrite !endpoint_connecting in Heq. congruence. }
  assert (Hrun : exists l,
            get_sorted_neighbors S G node reverse (Some allowed) = Ok l /\
            l ≡ₚ map pick common /\ belief_descending G node reverse l).
  { unfold get_sorted_neighbors, belief_descending.
    assert (truthy (Some allowed) = true) as ->
      by (destruct allowed; [contradiction | reflexivity]).
    unfold pick, common.
    destruct reverse; rewrite Hes; simpl; apply sorted_reverse_spec;
      intros n Hin; apply Hkey; apply Hcands in Hin; tauto. }
  destruct Hrun as (l & Hl & Hperm & Hs).
  exists l. split; [exact Hnb |]. split; [exact Hl |].
  split; [rewrite Hperm; exact Hnd |]. split; [| exact Hs].
  intro n. rewrite Hperm. apply Hcands.
Qed.

(** What a call returns when the allow-list is absent or empty. *)
Lemma get_sorted_neighbors_unrestricted (S : set_order) (G : nxgraph attrs)
    (node : Node) (reverse : bool) (force_edges : option (list edge)) :
  truthy force_edges = false -> wf_graph G = true -> has_node G node = true ->
  exists nbrs l,
    neighbors_of G node reverse = Ok nbrs /\
    get_sorted_neighbors S G node reverse force_edges = Ok l /\
    l ≡ₚ nbrs /\
    belief_descending G node reverse l.
Proof.
  intros Ht Hwf Hn.
  destruct (neighbors_connected G node reverse Hwf Hn) as (nbrs & Hnb & Hkey).
  exists nbrs. unfold get_sorted_neighbors, belief_descending. rewrite Ht.
  unfold neighbors_of in Hnb.
  destruct reverse; rewrite Hnb; simpl;
    destruct (sorted_reverse_spec _ _ nbrs Hkey) as (l & Hl & Hperm & Hs);
    exists l; auto.
Qed.

(** In a well-formed graph the neighbours of a node, in either direction,
    are listed once each, and are the nodes with a connecting edge. *)
Lemma neighbors_iff_edge (G : nxgraph attrs) (node : Node) (reverse : bool)
    (nbrs : list Node) :
  wf_graph G = true -> neighbors_of G node reverse = Ok nbrs ->
  NoDup nbrs /\
  forall n, n ∈ nbrs <->
    exists d, get_adj (_succ G) (connecting node reverse n).1
                (connecting node reverse n).2 = Some d.
Proof.
  intros Hwf Hnb. pose proof (wf_graph_inv G Hwf) as (_ & _ & _ & Hsucc & Hpred).
  unfold neighbors_of, predecessors, successors in Hnb. destruct reverse; simpl.
  - destruct (odict_get (_pred G) node) as [pn|] eqn:E; [| discriminate].
    injection Hnb as <-. pose proof (odict_get_Some_elem _ _ _ E) as Hin.
    destruct (wf_adj_entry _ _ _ _ _ Hpred Hin) as [Hnd _].
    split; [exact Hnd |]. intros n. split.
    + apply (pred_has_edge G n node pn Hwf E).
    + intros [d Hd]. unfold get_adj in Hd.
      destruct (odict_get (_succ G) n) as [sn|] eqn:En; simpl in Hd; [| discriminate].
      apply odict_get_Some_elem in En, Hd.
      destruct (wf_adj_entry _ _ _ _ _ Hsucc En) as [_ Hall].
      destruct (Hall node d Hd) as [_ Hback]. unfold get_adj in Hback.
      rewrite E in Hback. simpl in Hback.
      apply odict_get_is_Some. eauto.
  - destruct (odict_get (_succ G) node) as [sn|] eqn:E; [| discriminate].
    injection Hnb as <-. pose proof (odict_get_Some_elem _ _ _ E) as Hin.
    destruct (wf_adj_entry _ _ _ _ _ Hsucc Hin) as [Hnd _].
    split; [exact Hnd |]. intros n. unfold get_adj. rewrite E. simpl.
    rewrite <- odict_get_is_Some. reflexivity.
Qed.

Lemma StronglySorted_lookup_lt {A} (R : A -> A -> Prop) (l : list A)
    (i j : nat) (a b : A) :
  StronglySorted R l -> (i < j)%nat -> l !! i = Some a -> l !! j = Some b -> R a b.
Proof.
  intros Hs. revert i j. induction Hs as [|x l Hs IH Hx]; intros i j Hij Ha Hb.
  - rewrite lookup_nil in Ha. discriminate.
  - destruct j as [|j]; [lia |]. simpl in Hb. destruct i as [|i]; simpl in Ha.
    + injection Ha as <-. rewrite Forall_forall in Hx. apply Hx.
      apply list_elem_of_lookup. eauto.
    + apply (IH i j); [lia | exact Ha | exact Hb].
Qed.

(** The belief the code sorts by is the belief the edge list shows. *)
Lemma edge_has_belief_spec (G : nxgraph attrs) (u v : Node) (q : Q) :
  wf_graph G = true -> edge_has_belief G (u, v) q -> edge_belief G u v = q.
Proof.
  intros Hwf (d & Hin & Hq). simpl in Hin.
  apply (elem_of_edges G u v d (wf_graph_nodup_adj G Hwf)) in Hin.
  unfold edge_belief, get_belief. rewrite Hin.
  destruct (belief d); subst q; reflexivity.
Qed.

Lemma belief_descending_stated (G : nxgraph attrs) (node : Node) (reverse : bool)
    (l : list Node) :
  wf_graph G = true -> belief_descending G node reverse l ->
  sorted_by_descending_belief G node reverse l.
Proof.
  intros Hwf Hs i j a b qa qb Hij Ha Hb Hqa Hqb.
  pose proof (StronglySorted_lookup_lt _ l i j a b Hs Hij Ha Hb) as Hab.
  unfold connecting_belief, connecting in *.
  destruct reverse;
    rewrite (edge_has_belief_spec _ _ _ qa Hwf Hqa),
            (edge_has_belief_spec _ _ _ qb Hwf Hqb) in Hab; exact Hab.
Qed.

(** The neighbours the code finds are the end points of the edges at the
    node. *)
Lemma neighbors_have_edges (G : nxgraph attrs) (node : Node) (reverse : bool)
    (nbrs : list Node) :
  wf_graph G = true -> neighbors_of G node reverse = Ok nbrs ->
  NoDup nbrs /\
  forall n, n ∈ nbrs <-> has_edge G (connecting node reverse n).
Proof.
  intros Hwf Hnb. destruct (neighbors_iff_edge G node reverse nbrs Hwf Hnb) as [Hnd Hmem].
  split; [exact Hnd |]. intros n. rewrite Hmem. unfold has_edge.
  split; intros [d Hd]; exists d;
    apply (elem_of_edges G _ _ d (wf_graph_nodup_adj G Hwf)); exact Hd.
Qed.

Lemma example_multigraph_out_edges :
  multi_out_edges example_multigraph (NStr "N")
  = Ok [(NStr "N", NStr "Y"); (NStr "N", NStr "Z"); (NStr "N", NStr "X")].
Proof. vm_compute. reflexivity. Qed.

(** C5 as stated fails on a multigraph: [N] has the three successors of the
    ordering example, and the call raises [ValueError], since the edge view
    of a [MultiDiGraph] is indexed by two nodes and a key, not by a pair. *)
Lemma get_sorted_neighbors_raises_on_multigraph :
  wf_object (MultiDiGraph example_multigraph) = true /\
  map (fun e => (e.1.1.1, e.1.1.2)) (graph_edges (MultiDiGraph example_multigraph))
  = [(NStr "N", NStr "Y"); (NStr "N", NStr "Z"); (NStr "N", NStr "X")] /\
  forall S : set_order,
    AnyGraph.get_sorted_neighbors S (MultiDiGraph example_multigraph) (NStr "N") false None
    = Raise ValueError.
Proof.
  split; [vm_compute; reflexivity |]. split; [vm_compute; reflexivity |].
  intros S. vm_compute. reflexivity.
Qed.

(** C5, amended to graphs of class [DiGraph].  For a well-formed [DiGraph],
    a node of it and either direction, the call without allow-list returns
    a list without repetition whose members are exactly the nodes that an
    edge of the graph connects to the node in the direction of the search
    (its successors going forward, its predecessors in reverse), and of two
    positions in the list the earlier one holds the neighbour whose edge has
    the larger or equal belief, an edge without belief counting as 0. *)
Theorem get_sorted_neighbors_descending_belief (S : set_order) (G : nxgraph attrs)
    (node : Node) (reverse : bool) :
  wf_graph G = true -> has_node G node = true ->
  exists l,
    AnyGraph.get_sorted_neighbors S (DiGraph G) node reverse None = Ok l /\
    NoDup l /\
    (forall n, n ∈ l <-> has_edge G (connecting node reverse n)) /\
    sorted_by_descending_belief G node reverse l.
Proof.
  intros Hwf Hn.
  destruct (get_sorted_neighbors_unrestricted S G node reverse None eq_refl Hwf Hn)
    as (nbrs & l & Hnb & Hl & Hperm & Hs).
  destruct (neighbors_have_edges G node reverse nbrs Hwf Hnb) as [Hnd Hmem].
  exists l. split; [exact Hl |].
  split; [rewrite Hperm; exact Hnd |].
  split; [intro n; rewrite Hperm; apply Hmem |].
  apply belief_descending_stated; assumption.
Qed.

Lemma get_sorted_neighbors_descending_belief_witness :
  wf_graph example_graph = true /\ has_node example_graph (NStr "N") = true /\
  exists l,
    AnyGraph.get_sorted_neighbors insertion_order (DiGraph example_graph) (NStr "N")
      false None = Ok l /\
    l = [NStr "X"; NStr "Y"; NStr "Z"] /\
    NoDup l /\
    (forall n, n ∈ l <-> has_edge example_graph (connecting (NStr "N") false n)) /\
    sorted_by_descending_belief example_graph (NStr "N") false l.
Proof.
  split; [vm_compute; reflexivity |]. split; [vm_compute; reflexivity |].
  destruct (get_sorted_neighbors_descending_belief insertion_order example_graph
              (NStr "N") false) as (l & Hl & Hnd & Hmem & Hs);
    [vm_compute; reflexivity | vm_compute; reflexivity |].
  exists l. split; [exact Hl |]. split; [| auto].
  vm_compute in Hl. injection Hl as <-. reflexivity.
Defined.

(** C10 as stated fails on a multigraph: with the empty allow-list the call
    on [N], which has three successors, raises [ValueError] and returns no
    list. *)
Lemma empty_allow_list_raises_on_multigraph :
  wf_object (MultiDiGraph example_multigraph) = true /\
  map (fun e => (e.1.1.1, e.1.1.2)) (graph_edges (MultiDiGraph example_multigraph))
  = [(NStr "N", NStr "Y"); (NStr "N", NStr "Z"); (NStr "N", NStr "X")] /\
  forall S : set_order,
    AnyGraph.get_sorted_neighbors S (MultiDiGraph example_multigraph) (NStr "N") false
      (Some [])
    = Raise ValueError.
Proof.
  split; [vm_compute; reflexivity |]. split; [vm_compute; reflexivity |].
  intros S. vm_compute. reflexivity.
Qed.

(** C10, amended.  On every graph of either class, every node and either
    direction, the call with the empty allow-list has the outcome of the
    call without allow-list, the same exception included.  On a well-formed
    [DiGraph] and a node of it that outcome is a list without repetition
    whose members are exactly the nodes an edge of the graph connects to the
    node in the direction of the search, the earlier of two positions
    holding the larger or equal belief; it is not the empty list when the
    node has a neighbour. *)
Theorem get_sorted_neighbors_empty_allow_list (S : set_order) (node : Node)
    (reverse : bool) :
  (forall G : graph,
     AnyGraph.get_sorted_neighbors S G node reverse (Some [])
     = AnyGraph.get_sorted_neighbors S G node reverse None) /\
  (forall g : nxgraph attrs,
     wf_graph g = true -> has_node g node = true ->
     exists l,
       AnyGraph.get_sorted_neighbors S (DiGraph g) node reverse (Some []) = Ok l /\
       NoDup l /\
       (forall n, n ∈ l <-> has_edge g (connecting node reverse n)) /\
       sorted_by_descending_belief g node reverse l /\
       (forall n, has_edge g (connecting node reverse n) -> l <> [])).
Proof.
  split.
  - intros [g | g]; reflexivity.
  - intros g Hwf Hn.
    destruct (get_sorted_neighbors_unrestricted S g node reverse (Some []) eq_refl Hwf Hn)
      as (nbrs & l & Hnb & Hl & Hperm & Hs).
    destruct (neighbors_have_edges g node reverse nbrs Hwf Hnb) as [Hnd Hmem].
    assert (Hin : forall n, n ∈ l <-> has_edge g (connecting node reverse n))
      by (intro n; rewrite Hperm; apply Hmem).
    exists l. split; [exact Hl |].
    split; [rewrite Hperm; exact Hnd |].
    split; [exact Hin |].
    split; [apply belief_descending_stated; assumption |].
    intros n He ->. apply Hin in He. eapply not_elem_of_nil, He.
Qed.

Lemma get_sorted_neighbors_empty_allow_list_witness :
  wf_graph example_graph = true /\ has_node example_graph (NStr "N") = true /\
  AnyGraph.get_sorted_neighbors insertion_order (DiGraph example_graph) (NStr "N") false
    (Some [])
  = AnyGraph.get_sorted_neighbors insertion_order (DiGraph example_graph) (NStr "N") false
      None /\
  exists l,
    AnyGraph.get_sorted_neighbors insertion_order (DiGraph example_graph) (NStr "N")
      false (Some []) = Ok l /\
    l = [NStr "X"; NStr "Y"; NStr "Z"] /\
    NoDup l /\
    (forall n, n ∈ l <-> has_edge example_graph (connecting (NStr "N") false n)) /\
    sorted_by_descending_belief example_graph (NStr "N") false l.
Proof.
  destruct (get_sorted_neighbors_empty_allow_list insertion_order (NStr "N") false)
    as [Heq Hall].
  split; [vm_compute; reflexivity |]. split; [vm_compute; reflexivity |].
  split; [apply Heq |].
  destruct (Hall example_graph) as (l & Hl & Hnd & Hmem & Hs & _);
    [vm_compute; reflexivity | vm_compute; reflexivity |].
  exists l. split; [exact Hl |]. split; [| auto].
  vm_compute in Hl. injection Hl as <-. reflexivity.
Defined.

(** C6 as stated fails twice.  On the empty allow-list: it is supplied, no
    edge is in it, and still every successor is returned.  On a multigraph:
    with the allow-list of the single edge from [N] to [X], which the graph
    has, the call raises [ValueError] and returns no list. *)
Lemma allow_list_empty_not_restricting :
  AnyGraph.get_sorted_neighbors insertion_order (DiGraph example_graph) (NStr "N") false
    (Some [])
  = Ok [NStr "X"; NStr "Y"; NStr "Z"] /\
  map (fun e => (e.1.1.1, e.1.1.2)) (graph_edges (MultiDiGraph example_multigraph))
  = [(NStr "N", NStr "Y"); (NStr "N", NStr "Z"); (NStr "N", NStr "X")] /\
  forall S : set_order,
    AnyGraph.get_sorted_neighbors S (MultiDiGraph example_multigraph) (NStr "N") false
      (Some [(NStr "N", NStr "X")])
    = Raise ValueError.
Proof.
  split; [vm_compute; reflexivity |]. split; [vm_compute; reflexivity |].
  intros S. unfold AnyGraph.get_sorted_neighbors, get_sorted_neighbors_multi.
  change (truthy (Some [(NStr "N", NStr "X")])) with true. cbv iota.
  rewrite example_multigraph_out_edges. simpl.
  destruct (set_intersection S _ _) as [|e common] eqn:E.
  - exfalso. eapply not_elem_of_nil. rewrite <- E.
    apply set_intersection_spec. split; [right; right; left | left].
  - reflexivity.
Qed.

(** C6, amended to graphs of class [DiGraph] and to a non-empty allow-list.
    For a well-formed [DiGraph], a node of it and either direction, the
    result is a list without repetition whose members are exactly the nodes
    [n] such that the edge connecting [n] to the node in the direction of
    the search is an edge of the graph and is in the allow-list; of two
    positions the earlier holds the larger or equal belief; and when the
    allow-list is the single edge to a neighbour [x], the result is
    [[x]]. *)
Theorem get_sorted_neighbors_allow_list (S : set_order) (G : nxgraph attrs)
    (node : Node) (reverse : bool) (allowed : list edge) :
  allowed <> [] -> wf_graph G = true -> has_node G node = true ->
  exists l,
    AnyGraph.get_sorted_neighbors S (DiGraph G) node reverse (Some allowed) = Ok l /\
    NoDup l /\
    (forall n, n ∈ l <->
       has_edge G (connecting node reverse n) /\ connecting node reverse n ∈ allowed) /\
    sorted_by_descending_belief G node reverse l /\
    (forall x, has_edge G (connecting node reverse x) ->
       allowed = [connecting node reverse x] -> l = [x]).
Proof.
  intros Hne Hwf Hn.
  destruct (get_sorted_neighbors_restricted S G node reverse allowed Hne Hwf Hn)
    as (nbrs & l & Hnb & Hl & Hnd & Hmem & Hs).
  destruct (neighbors_have_edges G node reverse nbrs Hwf Hnb) as [_ Hedge].
  assert (Hin : forall n, n ∈ l <->
            has_edge G (connecting node reverse n) /\ connecting node reverse n ∈ allowed).
  { intro n. rewrite Hmem, Hedge. reflexivity. }
  exists l. split; [exact Hl |]. split; [exact Hnd |]. split; [exact Hin |].
  split; [apply belief_descending_stated; assumption |].
  intros x Hx ->. apply NoDup_only; [exact Hnd |].
  intro n. rewrite Hin. split.
  - intros [_ Hc]. apply list_elem_of_singleton in Hc.
    eapply connecting_inj; eassumption.
  - intros ->. split; [exact Hx | left].
Qed.

Lemma get_sorted_neighbors_allow_list_witness :
  [(NStr "N", NStr "X")] <> [] /\
  wf_graph example_graph = true /\ has_node example_graph (NStr "N") = true /\
  AnyGraph.get_sorted_neighbors insertion_order (DiGraph example_graph) (NStr "N") false
    (Some [(NStr "N", NStr "X")]) = Ok [NStr "X"].
Proof.
  split; [discriminate |]. split; [vm_compute; reflexivity |].
  split; [vm_compute; reflexivity |].
  destruct (get_sorted_neighbors_allow_list insertion_order example_graph (NStr "N")
              false [(NStr "N", NStr "X")])
    as (l & Hl & _ & _ & _ & Hone);
    [discriminate | vm_compute; reflexivity | vm_compute; reflexivity |].
  transitivity (Ok l); [exact Hl |]. f_equal. apply (Hone (NStr "X")); [| reflexivity].
  exists {| belief := Some (9 # 10)%Q; statements := evidence [false; true] |}.
  vm_compute. right. right. left.
Defined.

(** * Further properties of the module *)

(** ** The codec beyond the signs 0 and 1 *)

(** X1. Whatever [int] accepts as a sign (an integer, a Boolean, a numeric
    string), encoding an edge and decoding the result gives the edge back
    with its sign normalised: 0 when the sign converts to 0, and 1 for every
    other integer.  Nothing is logged. *)
Theorem round_trip_normalises_sign (a b edge_sign : pyval) (z : Z) (w : world) :
  Builtins.int edge_sign = Ok z ->
  (path_sign_to_signed_nodes a b edge_sign ≫= call_star2 signed_nodes_to_signed_edge) w
  = (w, Ok (PyTuple [a; b; PyInt (if z =? 0 then 0 else 1)])).
Proof.
  intros Hz.
  unfold path_sign_to_signed_nodes, try_except, mbind at 1, M_bind at 1.
  unfold mbind, M_bind, lift. rewrite Hz.
  destruct (z =? 0); reflexivity.
Qed.

Lemma round_trip_normalises_sign_witness :
  Builtins.int (PyStr " -7 ") = Ok (-7) /\
  (path_sign_to_signed_nodes (PyStr "A") (PyStr "B") (PyStr " -7 ")
     ≫= call_star2 signed_nodes_to_signed_edge) (module_loaded [])
  = (module_loaded [], Ok (PyTuple [PyStr "A"; PyStr "B"; PyInt 1])).
Proof.
  split; [reflexivity |].
  apply (round_trip_normalises_sign (PyStr "A") (PyStr "B") (PyStr " -7 ") (-7)
           (module_loaded [])).
  reflexivity.
Defined.

(** X2. The sentinel of the encoder is not an input of the decoder: when
    the sign makes [int] raise [ValueError], the encoder logs its warning and
    returns the pair of [(None, None)], and decoding that pair raises
    [TypeError], which the decoder does not catch; one warning has been
    logged by then, and no second one. *)
Theorem sentinel_nodes_not_decodable (a b edge_sign : pyval) (w : world) :
  Builtins.int edge_sign = Raise ValueError ->
  (path_sign_to_signed_nodes a b edge_sign ≫= call_star2 signed_nodes_to_signed_edge) w
  = (logged "Invalid sign %s when translating edge sign to int" [edge_sign] w,
     Raise TypeError).
Proof.
  intros Hbad.
  unfold path_sign_to_signed_nodes, try_except, mbind at 1, M_bind at 1.
  unfold mbind, M_bind, lift. rewrite Hbad. reflexivity.
Qed.

Lemma sentinel_nodes_not_decodable_witness :
  Builtins.int (PyStr "+") = Raise ValueError /\
  snd ((path_sign_to_signed_nodes (PyInt 1) (PyInt 2) (PyStr "+")
          ≫= call_star2 signed_nodes_to_signed_edge) (module_loaded []))
  = Raise TypeError.
Proof.
  split; [reflexivity |].
  rewrite (sentinel_nodes_not_decodable (PyInt 1) (PyInt 2) (PyStr "+")
             (module_loaded []) eq_refl).
  reflexivity.
Defined.

(** X3. The decoder compares the two signs as integers: the edge is
    positive exactly when they are equal, so the answer does not change when
    source and target are exchanged, and on the signs 0 and 1 it is their
    exclusive or.  The call neither logs nor raises when both signs
    convert. *)
Theorem signed_nodes_to_signed_edge_parity
    (a b source_sign target_sign : pyval) (s t : Z) (w : world) :
  Builtins.int source_sign = Ok s ->
  Builtins.int target_sign = Ok t ->
  exists p,
    signed_nodes_to_signed_edge (PyTuple [a; source_sign]) (PyTuple [b; target_sign]) w
    = (w, Ok (PyTuple [a; b; PyInt p])) /\
    signed_nodes_to_signed_edge (PyTuple [b; target_sign]) (PyTuple [a; source_sign]) w
    = (w, Ok (PyTuple [b; a; PyInt p])) /\
    (p = 0 <-> s = t) /\ (p = 1 <-> s <> t) /\
    (0 <= s <= 1 -> 0 <= t <= 1 -> p = Z.lxor s t).
Proof.
  intros Hs Ht. exists (if s =? t then 0 else 1).
  unfold signed_nodes_to_signed_edge, try_except, mbind, M_bind, lift. simpl.
  rewrite Hs, Ht. rewrite (Z.eqb_sym t s).
  destruct (Z.eqb_spec s t) as [-> | Hne].
  - repeat split; try reflexivity; try discriminate; try congruence.
    intros _ _. rewrite Z.lxor_nilpotent. reflexivity.
  - repeat split; try reflexivity; try discriminate; try congruence.
    intros H0 H1.
    assert ((s = 0 /\ t = 1) \/ (s = 1 /\ t = 0)) as [[-> ->] | [-> ->]] by lia;
      reflexivity.
Qed.

Lemma signed_nodes_to_signed_edge_parity_witness :
  exists p,
    signed_nodes_to_signed_edge (PyTuple [PyStr "A"; PyStr "1"])
      (PyTuple [PyStr "B"; PyBool true]) (module_loaded [])
    = (module_loaded [], Ok (PyTuple [PyStr "A"; PyStr "B"; PyInt p])) /\ p = 0.
Proof.
  destruct (signed_nodes_to_signed_edge_parity (PyStr "A") (PyStr "B") (PyStr "1")
              (PyBool true) 1 1 (module_loaded []) eq_refl eq_refl)
    as (p & Hrun & _ & Hzero & _).
  exists p. split; [exact Hrun | apply Hzero; reflexivity].
Defined.

(** X4. The two signed nodes are unpacked before the [try]: a signed node
    that is not a sequence of exactly two items makes the call raise, also
    with the [ValueError] of a wrong length, which the handler below would
    have caught; nothing is logged, and the signs are not looked at. *)
Theorem signed_node_unpacking_not_guarded (source target : pyval) (e : exn) (w : world) :
  (Builtins.unpack2 source = Raise e \/
   ((exists name sign, Builtins.unpack2 source = Ok (name, sign)) /\
    Builtins.unpack2 target = Raise e)) ->
  signed_nodes_to_signed_edge source target w = (w, Raise e).
Proof.
  intros [Hs | [(name & sign & Hs) Ht]];
    unfold signed_nodes_to_signed_edge, mbind, M_bind, lift; rewrite Hs;
    [reflexivity | rewrite Ht; reflexivity].
Qed.

Lemma signed_node_unpacking_not_guarded_witness :
  Builtins.unpack2 (PyTuple [PyStr "A"; PyInt 0; PyInt 0]) = Raise ValueError /\
  signed_nodes_to_signed_edge (PyTuple [PyStr "A"; PyInt 0; PyInt 0])
    (PyTuple [PyStr "B"; PyInt 0]) (module_loaded [])
  = (module_loaded [], Raise ValueError).
Proof.
  split; [reflexivity |].
  apply (signed_node_unpacking_not_guarded (PyTuple [PyStr "A"; PyInt 0; PyInt 0])
           (PyTuple [PyStr "B"; PyInt 0]) ValueError (module_loaded [])).
  left. reflexivity.
Defined.

(** ** Neighbour ordering: absent nodes, ties, iteration order of sets *)

Lemma absent_node_no_entry {D} `{EqDecision D} (g : nxgraph D) (n : Node) :
  wf_graph g = true -> has_node g n = false ->
  odict_get (_succ g) n = None /\ odict_get (_pred g) n = None.
Proof.
  intros Hwf Hn. apply wf_graph_inv in Hwf as (_ & Hs & Hp & _).
  assert (Hnot : n ∉ odict_keys (_node g)).
  { intros Hin. apply odict_mem_true in Hin. unfold has_node in Hn. congruence. }
  split; apply odict_get_None; [rewrite Hs | rewrite Hp]; exact Hnot.
Qed.

(** X5. A node that is not in the graph is an error, not an empty answer:
    without a usable allow-list the call raises [NetworkXError] in either
    direction, and for an integer node it does so with an allow-list
    too. *)
Theorem get_sorted_neighbors_absent_node (S : set_order) (G : nxgraph attrs)
    (node : Node) (reverse : bool) (force_edges : option (list edge)) :
  wf_graph G = true -> has_node G node = false ->
  truthy force_edges = false \/ (exists z, node = NInt z) ->
  get_sorted_neighbors S G node reverse force_edges = Raise NetworkXError.
Proof.
  intros Hwf Hn Hcase.
  destruct (absent_node_no_entry G node Hwf Hn) as [Hs Hp].
  unfold get_sorted_neighbors.
  destruct (truthy force_edges) eqn:Ht.
  - destruct Hcase as [? | [z ->]]; [discriminate |].
    unfold in_edges, out_edges, nbunch_iter. rewrite Hn.
    destruct reverse; reflexivity.
  - unfold predecessors, successors. rewrite Hs, Hp.
    destruct reverse; reflexivity.
Qed.

Lemma get_sorted_neighbors_absent_node_witness :
  wf_graph example_graph = true /\ has_node example_graph (NInt 5) = false /\
  get_sorted_neighbors insertion_order example_graph (NInt 5) true
    (Some [(NStr "N", NStr "X")]) = Raise NetworkXError.
Proof.
  split; [vm_compute; reflexivity |]. split; [vm_compute; reflexivity |].
  apply (get_sorted_neighbors_absent_node insertion_order example_graph (NInt 5) true
           (Some [(NStr "N", NStr "X")]));
    [vm_compute; reflexivity | vm_compute; reflexivity | right; exists 5; reflexivity].
Defined.

(** X6. With a non-empty allow-list an absent string node is taken as a
    sequence of one-character node names; when none of its characters is a
    node, the call returns the empty list where the same call without
    allow-list raises. *)
Theorem get_sorted_neighbors_absent_string_node (S : set_order) (G : nxgraph attrs)
    (s : string) (reverse : bool) (allowed : list edge) :
  allowed <> [] -> has_node G (NStr s) = false ->
  Forall (fun c => odict_mem (_succ G) (NStr (String c EmptyString)) = false)
         (list_ascii_of_string s) ->
  get_sorted_neighbors S G (NStr s) reverse (Some allowed) = Ok [].
Proof.
  intros Hne Hn Hchars.
  assert (Hnb : nbunch_iter G (NStr s) = Ok []).
  { unfold nbunch_iter. rewrite Hn. f_equal.
    induction Hchars as [|c cs Hc _ IH]; simpl; [reflexivity |].
    rewrite filter_cons, decide_False by congruence. exact IH. }
  assert (Hes : set_intersection S (@nil (Node * Node)) allowed = []).
  { destruct (set_intersection S (@nil (Node * Node)) allowed) as [|e es] eqn:E;
      [reflexivity |].
    assert (He : e ∈ set_intersection S (@nil (Node * Node)) allowed)
      by (rewrite E; left).
    apply set_intersection_spec in He as [He _]. apply elem_of_nil in He as []. }
  unfold get_sorted_neighbors.
  assert (truthy (Some allowed) = true) as -> by (destruct allowed; [contradiction | reflexivity]).
  unfold in_edges, out_edges. rewrite Hnb. simpl.
  rewrite Hes. destruct reverse; reflexivity.
Qed.

Lemma get_sorted_neighbors_absent_string_node_witness :
  get_sorted_neighbors insertion_order example_graph (NStr "ab") false
    (Some [(NStr "N", NStr "X")]) = Ok [] /\
  get_sorted_neighbors insertion_order example_graph (NStr "ab") false None
  = Raise NetworkXError.
Proof.
  split; [| vm_compute; reflexivity].
  apply (get_sorted_neighbors_absent_string_node insertion_order example_graph "ab" false
           [(NStr "N", NStr "X")]);
    [discriminate | vm_compute; reflexivity | repeat constructor].
Defined.

Section StableSort.
Context {A : Type}.

Lemma insert_desc_filter (q : Q) (x : Q * A) (l : list (Q * A)) :
  filter (same_key q) (insert_desc x l) = filter (same_key q) (x :: l).
Proof.
  induction l as [|y l IH]; simpl; [reflexivity |].
  destruct (Qle_bool (fst y) (fst x)) eqn:E; [reflexivity |].
  rewrite (filter_cons _ y), IH, !filter_cons.
  destruct (decide (same_key q y)) as [Hy | Hy];
    destruct (decide (same_key q x)) as [Hx | Hx]; try reflexivity.
  exfalso. unfold same_key in Hx, Hy.
  assert (Hle : Qle_bool (fst y) (fst x) = true).
  { apply Qle_bool_iff. rewrite Hx, Hy. apply Qle_refl. }
  congruence.
Qed.

Lemma sort_desc_filter (q : Q) (l : list (Q * A)) :
  filter (same_key q) (sort_desc l) = filter (same_key q) l.
Proof.
  induction l as [|x l IH]; simpl; [reflexivity |].
  rewrite insert_desc_filter, !filter_cons, IH. reflexivity.
Qed.

Lemma filter_keyed (k : A -> Q) (q : Q) (l : list (Q * A)) :
  Forall (fun p => fst p = k (snd p)) l ->
  map snd (filter (same_key q) l) = filter (fun n => (k n == q)%Q) (map snd l).
Proof.
  induction 1 as [|p l Hp _ IH]; simpl; [reflexivity |].
  rewrite !filter_cons.
  destruct (decide (same_key q p)) as [H1 | H1];
    destruct (decide (k (snd p) == q)%Q) as [H2 | H2]; simpl; rewrite ?IH;
    try reflexivity; exfalso; unfold same_key in H1; rewrite Hp in H1; contradiction.
Qed.

(** [sorted_reverse] is stable: the elements of one key keep their order. *)
Lemma sorted_reverse_stable (key : A -> result Q) (k : A -> Q) (ns ns' : list A) :
  (forall n, n ∈ ns -> key n = Ok (k n)) ->
  sorted_reverse key ns = Ok ns' ->
  forall q, filter (fun n => (k n == q)%Q) ns' = filter (fun n => (k n == q)%Q) ns.
Proof.
  intros Hkey Hrun q.
  assert (Hmap : rmapM (fun n => rbind (key n) (fun x => Ok (x, n))) ns
                 = Ok (map (fun n => (k n, n)) ns)).
  { clear Hrun. induction ns as [|n ns IH]; simpl; [reflexivity |].
    rewrite Hkey by left. simpl. rewrite IH; [reflexivity |].
    intros m Hm. apply Hkey. right. exact Hm. }
  unfold sorted_reverse in Hrun. rewrite Hmap in Hrun. simpl in Hrun.
  injection Hrun as <-.
  set (keyed := map (fun n => (k n, n)) ns).
  assert (Hall : Forall (fun p => fst p = k (snd p)) keyed).
  { unfold keyed. apply Forall_fmap, Forall_forall. reflexivity. }
  assert (Hall' : Forall (fun p => fst p = k (snd p)) (sort_desc keyed)).
  { rewrite sort_desc_Permutation. exact Hall. }
  rewrite <- (filter_keyed k q _ Hall'), sort_desc_filter, (filter_keyed k q _ Hall).
  unfold keyed. rewrite map_map. simpl. rewrite map_id. reflexivity.
Qed.

End StableSort.

(** X7. Ties are broken by the graph: in the result of a call without a
    usable allow-list, the neighbours whose connecting edges have one and
    the same belief stand in the order in which the graph lists them (the
    order in which their edges were added). *)
Theorem get_sorted_neighbors_stable (S : set_order) (G : nxgraph attrs) (node : Node)
    (reverse : bool) (force_edges : option (list edge)) :
  truthy force_edges = false ->
  wf_graph G = true -> has_node G node = true ->
  exists nbrs l,
    neighbors_of G node reverse = Ok nbrs /\
    get_sorted_neighbors S G node reverse force_edges = Ok l /\
    forall q, filter (same_belief G node reverse q) l
              = filter (same_belief G node reverse q) nbrs.
Proof.
  intros Hf Hwf Hn.
  destruct (neighbors_connected G node reverse Hwf Hn) as (nbrs & Hnb & Hkey).
  exists nbrs. unfold get_sorted_neighbors. rewrite Hf.
  unfold neighbors_of in Hnb.
  destruct reverse; rewrite Hnb; simpl;
    destruct (sorted_reverse_spec _ _ nbrs Hkey) as (l & Hl & _ & _);
    exists l; (split; [exact Hnb |]); (split; [exact Hl |]);
    intros q; apply (sorted_reverse_stable _ _ nbrs l Hkey Hl q).
Qed.

Lemma tied_graph_wf : wf_graph tied_graph = true.
Proof. vm_compute. reflexivity. Qed.

Lemma get_sorted_neighbors_stable_witness :
  wf_graph tied_graph = true /\ has_node tied_graph (NStr "N") = true /\
  exists nbrs l,
    neighbors_of tied_graph (NStr "N") false = Ok nbrs /\
    get_sorted_neighbors insertion_order tied_graph (NStr "N") false None = Ok l /\
    forall q, filter (same_belief tied_graph (NStr "N") false q) l
              = filter (same_belief tied_graph (NStr "N") false q) nbrs.
Proof.
  split; [vm_compute; reflexivity |]. split; [vm_compute; reflexivity |].
  apply (get_sorted_neighbors_stable insertion_order tied_graph (NStr "N") false None);
    vm_compute; reflexivity.
Defined.

(** X8. The order in which Python happens to iterate over the intersected
    edge sets shows in the result only through ties: when no two allowed
    neighbours have edges of equal belief, every iteration order gives the
    same list. *)
Theorem allow_list_result_unique_without_ties (S1 S2 : set_order) (G : nxgraph attrs)
    (node : Node) (reverse : bool) (allowed : list edge) :
  allowed <> [] -> wf_graph G = true -> has_node G node = true ->
  (forall nbrs a b,
     neighbors_of G node reverse = Ok nbrs -> a ∈ nbrs -> b ∈ nbrs ->
     connecting node reverse a ∈ allowed -> connecting node reverse b ∈ allowed ->
     (connecting_belief G node reverse a == connecting_belief G node reverse b)%Q ->
     a = b) ->
  get_sorted_neighbors S1 G node reverse (Some allowed)
  = get_sorted_neighbors S2 G node reverse (Some allowed).
Proof.
  intros Hne Hwf Hn Hties.
  destruct (get_sorted_neighbors_restricted S1 G node reverse allowed Hne Hwf Hn)
    as (nbrs & l1 & Hnb & Hl1 & Hnd1 & Hin1 & Hs1).
  destruct (get_sorted_neighbors_restricted S2 G node reverse allowed Hne Hwf Hn)
    as (nbrs' & l2 & Hnb' & Hl2 & Hnd2 & Hin2 & Hs2).
  rewrite Hnb in Hnb'. injection Hnb' as <-.
  rewrite Hl1, Hl2. f_equal.
  apply (StronglySorted_unique_strong
           (fun a b => (connecting_belief G node reverse b
                        <= connecting_belief G node reverse a)%Q));
    [| exact Hs1 | exact Hs2 |].
  - intros a b Ha Hb Hab Hba.
    apply Hin1 in Ha as [Ha Haa]. apply Hin2 in Hb as [Hb Hbb].
    apply (Hties nbrs a b Hnb Ha Hb Haa Hbb). apply Qle_antisym; assumption.
  - apply NoDup_Permutation; [exact Hnd1 | exact Hnd2 |].
    intro n. rewrite Hin1, Hin2. reflexivity.
Qed.

Lemma allow_list_result_unique_without_ties_witness :
  get_sorted_neighbors insertion_order example_graph (NStr "N") false
    (Some [(NStr "N", NStr "Z"); (NStr "N", NStr "X"); (NStr "Q", NStr "X")])
  = get_sorted_neighbors reversed_order example_graph (NStr "N") false
      (Some [(NStr "N", NStr "Z"); (NStr "N", NStr "X"); (NStr "Q", NStr "X")]).
Proof.
  apply (allow_list_result_unique_without_ties insertion_order reversed_order
           example_graph (NStr "N") false
           [(NStr "N", NStr "Z"); (NStr "N", NStr "X"); (NStr "Q", NStr "X")]);
    [discriminate | vm_compute; reflexivity | vm_compute; reflexivity |].
  intros nbrs a b Hnb Ha Hb _ _ Hq. vm_compute in Hnb. injection Hnb as <-.
  repeat (apply elem_of_cons in Ha as [-> | Ha]);
    repeat (apply elem_of_cons in Hb as [-> | Hb]);
    try reflexivity; try (apply elem_of_nil in Ha as []);
    try (apply elem_of_nil in Hb as []); vm_compute in Hq; discriminate Hq.
Defined.

(** With a tie the iteration order does show: on [tied_graph] the two
    orders give the two neighbours of [N] in opposite orders. *)
Example allow_list_result_depends_on_order_with_ties :
  get_sorted_neighbors insertion_order tied_graph (NStr "N") false
    (Some [(NStr "N", NStr "P"); (NStr "N", NStr "Q")]) = Ok [NStr "P"; NStr "Q"] /\
  get_sorted_neighbors reversed_order tied_graph (NStr "N") false
    (Some [(NStr "N", NStr "P"); (NStr "N", NStr "Q")]) = Ok [NStr "Q"; NStr "P"].
Proof. vm_compute. split; reflexivity. Qed.

(** ** The registry *)

(** X9. [register_edge_filter] stores the function under its own name and
    returns it unchanged; the entry replaces whatever was registered under
    that name, the other entries, [G], the store and the log stay as they
    were, and from then on [get_subgraph] with that name filters with this
    function. *)
Theorem register_edge_filter_then_lookup (function : edge_filter) (w : world) :
  exists w',
    register_edge_filter function w = (w', Ok function) /\
    edge_filter_functions w' !! __name__ function = Some function /\
    (forall name, name <> __name__ function ->
       edge_filter_functions w' !! name = edge_filter_functions w !! name) /\
    heap w' = heap w /\ G w' = G w /\ log w' = log w /\
    (forall g,
       get_subgraph g (__name__ function) w'
       = view_copy (subgraph_view g (Some function)) (set_G (Some g) w')) /\
    (forall other,
       __name__ other = __name__ function ->
       fst (register_edge_filter function (fst (register_edge_filter other w))) = w').
Proof.
  eexists. split; [reflexivity |]. simpl.
  split; [apply lookup_insert_eq |].
  split; [intros name Hne; apply lookup_insert_ne; congruence |].
  split; [reflexivity |]. split; [reflexivity |]. split; [reflexivity |].
  split.
  - intros g. rewrite get_subgraph_unfold. simpl.
    rewrite lookup_insert_eq. reflexivity.
  - intros other Hname. unfold set_edge_filter_functions. simpl.
    rewrite Hname, insert_insert_eq. reflexivity.
Qed.

Lemma register_edge_filter_then_lookup_witness :
  exists w',
    register_edge_filter filter_to_internal_edges (module_loaded []) = (w', Ok filter_to_internal_edges) /\
    edge_filter_functions w' !! "filter_to_internal_edges" = Some filter_to_internal_edges /\
    edge_filter_functions w' !! "other" = edge_filter_functions (module_loaded []) !! "other".
Proof.
  destruct (register_edge_filter_then_lookup filter_to_internal_edges (module_loaded []))
    as (w' & Hrun & Hget & Hother & _).
  exists w'. split; [exact Hrun |]. split; [exact Hget |].
  apply Hother. discriminate.
Defined.

(** ** Extraction with the built-in predicate *)

Lemma module_loaded_registry (h : list graph) :
  edge_filter_functions (module_loaded h) !! "filter_to_internal_edges"
  = Some filter_to_internal_edges.
Proof. apply (lookup_insert_eq (M := gmap string)). Qed.

(** The copy made with the built-in predicate, with all that is known about
    it. *)
Lemma internal_subgraph_spec (w : world) (g : loc) (gr : graph) :
  edge_filter_functions w !! "filter_to_internal_edges" = Some filter_to_internal_edges ->
  heap w !! g = Some gr -> wf_object gr = true -> evidence_flagged gr ->
  exists new_gr,
    get_subgraph g "filter_to_internal_edges" w
    = (set_heap (heap w ++ [new_gr]) (set_G (Some g) w), Ok (length (heap w))) /\
    same_class gr new_gr /\
    wf_object new_gr = true /\
    evidence_flagged new_gr /\
    graph_nodes new_gr = graph_nodes gr /\
    forall u v args d,
      (u, v, args, d) ∈ graph_edges new_gr <->
      (u, v, args, d) ∈ graph_edges gr /\
      exists stmts s, statements d = Some stmts /\ s ∈ stmts /\ internal s = Some true.
Proof.
  intros Hf Hg Hwf Hflag.
  destruct (view_copy_spec (set_G (Some g) w) g (Some filter_to_internal_edges) gr Hg Hwf)
    as (new_gr & Hrun & Hclass & Hwf' & Hnodes & Hedges).
  { intros u v args d Hin.
    destruct (filter_to_internal_edges_on_edges (heap w) g gr u v args d Hg Hwf Hflag Hin)
      as (b & Hb & _). eauto. }
  assert (Hiff : forall u v args d,
    (u, v, args, d) ∈ graph_edges new_gr <->
    (u, v, args, d) ∈ graph_edges gr /\
    exists stmts s, statements d = Some stmts /\ s ∈ stmts /\ internal s = Some true).
  { intros u v args d. rewrite Hedges. split.
    - intros [Hin Hok]. split; [exact Hin |].
      destruct (filter_to_internal_edges_on_edges (heap w) g gr u v args d Hg Hwf Hflag Hin)
        as (b & Hb & Hiff).
      apply Hiff. simpl in Hok, Hb. congruence.
    - intros [Hin Hex]. split; [exact Hin |].
      destruct (filter_to_internal_edges_on_edges (heap w) g gr u v args d Hg Hwf Hflag Hin)
        as (b & Hb & Hiff).
      apply Hiff in Hex. subst b. exact Hb. }
  exists new_gr. rewrite get_subgraph_unfold, Hf.
  split; [exact Hrun |]. split; [exact Hclass |]. split; [exact Hwf' |].
  split; [| split; [exact Hnodes | exact Hiff]].
  intros u v args d Hin. apply Hiff in Hin as [Hin _]. apply (Hflag u v args d Hin).
Qed.


Lemma example_graph_flagged : evidence_flagged (DiGraph example_graph).
Proof.
  intros u v args d Hin.
  assert (HF : Forall (fun e => exists stmts, statements e.2 = Some stmts /\
                         Forall (fun s => is_Some (internal s)) stmts)
                 (graph_edges (DiGraph example_graph))).
  { vm_compute. repeat constructor; eexists; (split; [reflexivity |]);
      repeat constructor; eexists; reflexivity. }
  rewrite Forall_forall in HF. exact (HF _ Hin).
Qed.


(** X11. Extraction with the built-in predicate is idempotent: extracting
    again from the extracted graph gives one more new object with the same
    nodes and the same edges; the first copy and the original stay in the
    store as they were. *)
Theorem get_subgraph_internal_idempotent (w : world) (g : loc) (gr : graph) :
  edge_filter_functions w !! "filter_to_internal_edges" = Some filter_to_internal_edges ->
  heap w !! g = Some gr -> wf_object gr = true -> evidence_flagged gr ->
  exists w1 g1 gr1 w2 g2 gr2,
    get_subgraph g "filter_to_internal_edges" w = (w1, Ok g1) /\
    get_subgraph g1 "filter_to_internal_edges" w1 = (w2, Ok g2) /\
    g <> g1 /\ g1 <> g2 /\ g <> g2 /\
    heap w2 !! g = Some gr /\ heap w2 !! g1 = Some gr1 /\ heap w2 !! g2 = Some gr2 /\
    G w2 = Some g1 /\
    graph_nodes gr2 = graph_nodes gr1 /\
    forall e, e ∈ graph_edges gr2 <-> e ∈ graph_edges gr1.
Proof.
  intros Hf Hg Hwf Hflag.
  destruct (internal_subgraph_spec w g gr Hf Hg Hwf Hflag)
    as (gr1 & Hrun1 & _ & Hwf1 & Hflag1 & _ & Hedges1).
  set (w1 := set_heap (heap w ++ [gr1]) (set_G (Some g) w)) in *.
  assert (Hg1 : heap w1 !! length (heap w) = Some gr1).
  { simpl. apply list_lookup_middle. reflexivity. }
  destruct (internal_subgraph_spec w1 (length (heap w)) gr1 Hf Hg1 Hwf1 Hflag1)
    as (gr2 & Hrun2 & _ & _ & _ & Hnodes2 & Hedges2).
  pose proof (lookup_lt_Some _ _ _ Hg) as Hlt.
  assert (Hlen : length (heap w1) = S (length (heap w))).
  { simpl. rewrite length_app. simpl. lia. }
  assert (Hg0 : heap w1 !! g = Some gr).
  { simpl. rewrite lookup_snoc_ne by lia. exact Hg. }
  clearbody w1.
  exists w1, (length (heap w)), gr1,
    (set_heap (heap w1 ++ [gr2]) (set_G (Some (length (heap w))) w1)),
    (length (heap w1)), gr2.
  split; [exact Hrun1 |]. split; [exact Hrun2 |].
  split; [lia |]. split; [lia |]. split; [lia |]. simpl.
  split; [rewrite lookup_snoc_ne by lia; exact Hg0 |].
  split; [rewrite lookup_snoc_ne by lia; exact Hg1 |].
  split; [apply list_lookup_middle; reflexivity |].
  split; [reflexivity |]. split; [exact Hnodes2 |].
  intros [[[u v] args] d]. rewrite Hedges2. split; [tauto |].
  intros Hin. split; [exact Hin |]. apply Hedges1 in Hin. tauto.
Qed.

Lemma get_subgraph_internal_idempotent_witness :
  exists w1 g1 gr1 w2 g2 gr2,
    get_subgraph 0%nat "filter_to_internal_edges" (module_loaded [DiGraph example_graph])
    = (w1, Ok g1) /\
    get_subgraph g1 "filter_to_internal_edges" w1 = (w2, Ok g2) /\
    graph_nodes gr2 = graph_nodes gr1 /\
    forall e, e ∈ graph_edges gr2 <-> e ∈ graph_edges gr1.
Proof.
  destruct (get_subgraph_internal_idempotent (module_loaded [DiGraph example_graph])
              0%nat (DiGraph example_graph))
    as (w1 & g1 & gr1 & w2 & g2 & gr2 & H1 & H2 & _ & _ & _ & _ & _ & _ & _ & Hn & He);
    [apply module_loaded_registry | reflexivity | vm_compute; reflexivity
    | exact example_graph_flagged |].
  exists w1, g1, gr1, w2, g2, gr2. auto.
Defined.

(** ** Failures of the built-in predicate *)

(** X12. The loop over the evidence stops at the first record that decides:
    after records that are all flagged as not internal, a record flagged
    internal makes the predicate return true, and a record without the
    ['internal'] key makes it raise [KeyError]; in both cases the records
    that follow are not looked at, malformed or not. *)
Theorem filter_to_internal_edges_first_decisive (heap : list graph) (l : loc)
    (gr : graph) (u v : Node) (args : list key) (d : attrs)
    (before after : list stmts_dict) (s : stmts_dict) :
  heap !! l = Some gr ->
  edge_of gr u v args = Ok (AttrDict d) ->
  statements d = Some (before ++ s :: after) ->
  Forall (fun r => internal r = Some false) before ->
  __call__ filter_to_internal_edges heap (Some l) u v args
  = match internal s with
    | Some true => Ok true
    | None => Raise KeyError
    | Some false => any_internal after
    end.
Proof.
  intros Hl Hedge Hstmts Hbefore. simpl. unfold filter_to_internal_edges_body.
  rewrite Hl, Hedge. simpl. rewrite Hstmts. simpl. clear Hstmts.
  induction Hbefore as [|r before Hr _ IH]; simpl.
  - destruct (internal s) as [[|]|]; reflexivity.
  - rewrite Hr. exact IH.
Qed.

Lemma filter_to_internal_edges_first_decisive_witness :
  let d := {| belief := None;
              statements := Some [{| internal := Some false |}; {| internal := Some true |};
                                  {| internal := None |}] |} in
  let gr := DiGraph (add_edges_from empty_graph [(NStr "A", NStr "B", d)]) in
  __call__ filter_to_internal_edges [gr] (Some 0%nat) (NStr "A") (NStr "B") [] = Ok true.
Proof.
  intros d gr.
  apply (filter_to_internal_edges_first_decisive [gr] 0%nat gr (NStr "A") (NStr "B") [] d
           [{| internal := Some false |}] [{| internal := None |}]
           {| internal := Some true |});
    [reflexivity | vm_compute; reflexivity | reflexivity | repeat constructor].
Defined.

Lemma not_edge_edge_of (gr : graph) (u v : Node) (args : list key) :
  (length args <= 1)%nat ->
  (forall d, (u, v, args, d) ∉ graph_edges gr) ->
  edge_of gr u v args = Raise KeyError \/
  exists kd, edge_of gr u v args = Ok (KeyDict kd).
Proof.
  intros Hlen Hnot. destruct gr as [g | g].
  - destruct args as [|k args]; simpl; unfold odict_item.
    + destruct (odict_get (_succ g) u) as [nbrs|] eqn:Eu; simpl; [| auto].
      destruct (odict_get nbrs v) as [d|] eqn:Ev; simpl; [| auto].
      exfalso. apply (Hnot d). apply elem_of_graph_edges_DiGraph.
      split; [reflexivity |]. apply elem_of_edges_iff. exists nbrs.
      split; apply odict_get_Some_elem; assumption.
    + destruct (odict_get (_succ g) u) as [nbrs|]; simpl; [| auto].
      destruct (odict_get nbrs v); simpl; auto.
  - destruct args as [|k args]; simpl; unfold odict_item.
    + destruct (odict_get (_succ g) u) as [nbrs|]; simpl; [| auto].
      destruct (odict_get nbrs v) as [kd|]; simpl; eauto.
    + destruct args; [| simpl in Hlen; lia].
      destruct (odict_get (_succ g) u) as [nbrs|] eqn:Eu; simpl; [| auto].
      destruct (odict_get nbrs v) as [kd|] eqn:Ev; simpl; [| auto].
      unfold odict_item.
      destruct (odict_get kd k) as [d|] eqn:Ek; simpl; [| auto].
      exfalso. apply (Hnot d). apply elem_of_graph_edges_MultiDiGraph.
      exists k. split; [reflexivity |]. apply elem_of_multi_edges_iff.
      exists nbrs, kd. repeat split; apply odict_get_Some_elem; assumption.
Qed.

(** X13. The predicate has no answer for what is not an edge of the graph
    [G] is bound to: called for a pair of nodes (and key) that is not an
    edge of that graph it raises [KeyError], and called while [G] is still
    [None], as it is until the first [get_subgraph], it raises
    [TypeError]. *)
Theorem filter_to_internal_edges_not_an_edge (heap : list graph) (u v : Node)
    (args : list key) :
  __call__ filter_to_internal_edges heap None u v args = Raise TypeError /\
  forall l gr,
    heap !! l = Some gr -> (length args <= 1)%nat ->
    (forall d, (u, v, args, d) ∉ graph_edges gr) ->
    __call__ filter_to_internal_edges heap (Some l) u v args = Raise KeyError.
Proof.
  split; [reflexivity |]. intros l gr Hl Hlen Hnot. simpl.
  unfold filter_to_internal_edges_body. rewrite Hl.
  destruct (not_edge_edge_of gr u v args Hlen Hnot) as [-> | [kd ->]]; reflexivity.
Qed.

Lemma filter_to_internal_edges_not_an_edge_witness :
  [DiGraph example_graph] !! 0%nat = Some (DiGraph example_graph) /\
  __call__ filter_to_internal_edges [DiGraph example_graph] (Some 0%nat)
    (NStr "Y") (NStr "N") [] = Raise KeyError.
Proof.
  split; [reflexivity |].
  apply (proj2 (filter_to_internal_edges_not_an_edge [DiGraph example_graph]
                  (NStr "Y") (NStr "N") []) 0%nat (DiGraph example_graph));
    [reflexivity | simpl; lia |].
  intros d Hin. vm_compute in Hin.
  repeat (apply elem_of_cons in Hin as [Hin | Hin]; [discriminate Hin |]).
  apply elem_of_nil in Hin as [].
Defined.

Lemma rbind_raises_only {A B} (e : exn) (r : result A) (k : A -> result B) :
  raises_only e r -> (forall a, raises_only e (k a)) -> raises_only e (rbind r k).
Proof. destruct r; simpl; auto. Qed.

Lemma rfilterM_raises_only {A} (e : exn) (f : A -> result bool) (l : list A) :
  (forall x, x ∈ l -> raises_only e (f x)) -> raises_only e (rfilterM f l).
Proof.
  induction l as [|x l IH]; intros Hall; simpl; [exact I |].
  apply rbind_raises_only; [apply Hall; left |]. intros keep.
  apply rbind_raises_only; [apply IH; intros y Hy; apply Hall; right; exact Hy |].
  intros ys. exact I.
Qed.

Lemma rmapM_raises_only {A B} (e : exn) (f : A -> result B) (l : list A) :
  (forall x, x ∈ l -> raises_only e (f x)) -> raises_only e (rmapM f l).
Proof.
  induction l as [|x l IH]; intros Hall; simpl; [exact I |].
  apply rbind_raises_only; [apply Hall; left |]. intros y.
  apply rbind_raises_only; [apply IH; intros z Hz; apply Hall; right; exact Hz |].
  intros ys. exact I.
Qed.

Lemma rfilterM_raises {A} (e : exn) (f : A -> result bool) (l : list A) (x : A) :
  (forall y, y ∈ l -> raises_only e (f y)) -> x ∈ l -> f x = Raise e ->
  rfilterM f l = Raise e.
Proof.
  intros Hall Hx Hfx. induction l as [|y l IH]; [apply elem_of_nil in Hx as [] |].
  simpl. pose proof (Hall y ltac:(left)) as Hy.
  apply elem_of_cons in Hx as [<- | Hx].
  - rewrite Hfx. reflexivity.
  - destruct (f y) as [keep | e']; simpl in Hy |- *; [| congruence].
    rewrite IH; [reflexivity | | exact Hx].
    intros z Hz. apply Hall. right. exact Hz.
Qed.

Lemma rmapM_raises {A B} (e : exn) (f : A -> result B) (l : list A) (x : A) :
  (forall y, y ∈ l -> raises_only e (f y)) -> x ∈ l -> f x = Raise e ->
  rmapM f l = Raise e.
Proof.
  intros Hall Hx Hfx. induction l as [|y l IH]; [apply elem_of_nil in Hx as [] |].
  simpl. pose proof (Hall y ltac:(left)) as Hy.
  apply elem_of_cons in Hx as [<- | Hx].
  - rewrite Hfx. reflexivity.
  - destruct (f y) as [b | e']; simpl in Hy |- *; [| congruence].
    rewrite IH; [reflexivity | | exact Hx].
    intros z Hz. apply Hall. right. exact Hz.
Qed.

(** A view whose predicate can only fail with [e], and does fail with it on
    some edge, cannot be copied: the copy fails with [e]. *)
Lemma view_edges_raises (e : exn) (ok : Node -> Node -> list key -> result bool)
    (g : nxgraph attrs) (u v : Node) (d : attrs) :
  (forall u' v' d', (u', v', d') ∈ edges g -> raises_only e (ok u' v' [])) ->
  (u, v, d) ∈ edges g -> ok u v [] = Raise e ->
  view_edges ok g = Raise e.
Proof.
  intros Hall Hin Hraise. unfold view_edges.
  apply elem_of_edges_iff in Hin as (nbrs & Hu & Hv).
  rewrite (rmapM_raises e _ (_succ g) (u, nbrs)); [reflexivity | | exact Hu |].
  - intros [u' nbrs'] Hu'. apply rbind_raises_only; [| intros kept; exact I].
    apply rfilterM_raises_only. intros [v' d'] Hv'. apply (Hall u' v' d').
    apply elem_of_edges_iff. eauto.
  - rewrite (rfilterM_raises e _ nbrs (v, d)); [reflexivity | | exact Hv | exact Hraise].
    intros [v' d'] Hv'. apply (Hall u v' d'). apply elem_of_edges_iff. eauto.
Qed.

Lemma view_multi_edges_raises (e : exn) (ok : Node -> Node -> list key -> result bool)
    (g : nxgraph keydict) (u v : Node) (k : key) (d : attrs) :
  (forall u' v' k' d', (u', v', k', d') ∈ multi_edges g -> raises_only e (ok u' v' [k'])) ->
  (u, v, k, d) ∈ multi_edges g -> ok u v [k] = Raise e ->
  view_multi_edges ok g = Raise e.
Proof.
  intros Hall Hin Hraise. unfold view_multi_edges.
  apply elem_of_multi_edges_iff in Hin as (nbrs & kd & Hu & Hv & Hk).
  rewrite (rmapM_raises e _ (_succ g) (u, nbrs)); [reflexivity | | exact Hu |].
  - intros [u' nbrs'] Hu'. apply rbind_raises_only; [| intros ess; exact I].
    apply rmapM_raises_only. intros [v' kd'] Hv'.
    apply rbind_raises_only; [| intros kept; exact I].
    apply rfilterM_raises_only. intros [k' d'] Hk'. apply (Hall u' v' k' d').
    apply elem_of_multi_edges_iff. eauto 6.
  - rewrite (rmapM_raises e _ nbrs (v, kd)); [reflexivity | | exact Hv |].
    + intros [v' kd'] Hv'. apply rbind_raises_only; [| intros kept; exact I].
      apply rfilterM_raises_only. intros [k' d'] Hk'. apply (Hall u v' k' d').
      apply elem_of_multi_edges_iff. eauto 6.
    + rewrite (rfilterM_raises e _ kd (k, d)); [reflexivity | | exact Hk | exact Hraise].
      intros [k' d'] Hk'. apply (Hall u v k' d'). apply elem_of_multi_edges_iff. eauto 6.
Qed.

Lemma any_internal_raises_only (stmts : list stmts_dict) :
  raises_only KeyError (any_internal stmts).
Proof.
  induction stmts as [|s stmts IH]; simpl; [exact I |].
  destruct (internal s) as [[|]|]; simpl; auto.
Qed.

(** On the edges of the graph [G] is bound to, the built-in predicate can
    only fail with [KeyError]. *)
Lemma filter_to_internal_edges_raises_only (heap : list graph) (l : loc) (gr : graph)
    (u v : Node) (args : list key) (d : attrs) :
  heap !! l = Some gr -> wf_object gr = true -> (u, v, args, d) ∈ graph_edges gr ->
  raises_only KeyError (__call__ filter_to_internal_edges heap (Some l) u v args) /\
  (statements d = None ->
   __call__ filter_to_internal_edges heap (Some l) u v args = Raise KeyError).
Proof.
  intros Hl Hwf Hin. simpl. unfold filter_to_internal_edges_body.
  rewrite Hl, (edge_of_graph_edges gr u v args d Hwf Hin). simpl.
  destruct (statements d) as [stmts|]; simpl.
  - split; [apply any_internal_raises_only | discriminate].
  - split; reflexivity.
Qed.

(** X14. Malformed edge data is fatal for the whole extraction: if one edge
    of a well-formed graph has no ['statements'], [get_subgraph] with the
    built-in predicate raises [KeyError], returns no graph and adds nothing
    to the store; [G] stays bound to the graph. *)
Theorem get_subgraph_malformed_edge (w : world) (g : loc) (gr : graph)
    (u v : Node) (args : list key) (d : attrs) :
  edge_filter_functions w !! "filter_to_internal_edges" = Some filter_to_internal_edges ->
  heap w !! g = Some gr -> wf_object gr = true ->
  (u, v, args, d) ∈ graph_edges gr -> statements d = None ->
  get_subgraph g "filter_to_internal_edges" w = (set_G (Some g) w, Raise KeyError).
Proof.
  intros Hf Hg Hwf Hin Hnone. rewrite get_subgraph_unfold, Hf.
  unfold view_copy, mbind, M_bind, get_world, lift, alloc. simpl. rewrite Hg.
  assert (Hheap : heap (set_G (Some g) w) !! g = Some gr) by exact Hg.
  destruct gr as [g0 | g0].
  - apply elem_of_graph_edges_DiGraph in Hin as [-> Hin].
    rewrite (view_edges_raises KeyError _ g0 u v d); [reflexivity | | exact Hin |].
    + intros u' v' d' Hin'.
      apply (filter_to_internal_edges_raises_only _ g _ u' v' [] d' Hheap Hwf).
      apply elem_of_graph_edges_DiGraph. auto.
    + apply (filter_to_internal_edges_raises_only _ g _ u v [] d Hheap Hwf);
        [apply elem_of_graph_edges_DiGraph; auto | exact Hnone].
  - apply elem_of_graph_edges_MultiDiGraph in Hin as (k & -> & Hin).
    rewrite (view_multi_edges_raises KeyError _ g0 u v k d); [reflexivity | | exact Hin |].
    + intros u' v' k' d' Hin'.
      apply (filter_to_internal_edges_raises_only _ g _ u' v' [k'] d' Hheap Hwf).
      apply elem_of_graph_edges_MultiDiGraph. eauto.
    + apply (filter_to_internal_edges_raises_only _ g _ u v [k] d Hheap Hwf);
        [apply elem_of_graph_edges_MultiDiGraph; eauto | exact Hnone].
Qed.

Lemma get_subgraph_malformed_edge_witness :
  let w := module_loaded [DiGraph malformed_graph] in
  heap w !! 0%nat = Some (DiGraph malformed_graph) /\
  wf_object (DiGraph malformed_graph) = true /\
  get_subgraph 0%nat "filter_to_internal_edges" w = (set_G (Some 0%nat) w, Raise KeyError).
Proof.
  intros w. split; [reflexivity |]. split; [vm_compute; reflexivity |].
  apply (get_subgraph_malformed_edge w 0%nat (DiGraph malformed_graph)
           (NStr "B") (NStr "C") [] {| belief := Some 1%Q; statements := None |});
    [apply module_loaded_registry | reflexivity | vm_compute; reflexivity | | reflexivity].
  vm_compute. right. left.
Defined.

(** ** Searching in the extracted subgraph *)

Lemma StronglySorted_ext_in {A} (R R' : A -> A -> Prop) (l : list A) :
  (forall a b, a ∈ l -> b ∈ l -> R a b -> R' a b) ->
  StronglySorted R l -> StronglySorted R' l.
Proof.
  intros Himp Hs. induction Hs as [|x l Hs IH Hx]; [constructor |].
  constructor.
  - apply IH. intros a b Ha Hb. apply Himp; right; assumption.
  - rewrite Forall_forall in Hx |- *. intros y Hy.
    apply Himp; [left | right; exact Hy | apply Hx, Hy].
Qed.

(** X15. Searching after filtering: on the subgraph extracted with the
    built-in predicate from a well-formed [DiGraph] with flagged evidence,
    [get_sorted_neighbors] without allow-list returns, for a node of the
    graph and either direction, exactly the neighbours that the original
    graph connects to the node by an edge with internal evidence, each once,
    in descending order of the beliefs the original graph's edges carry
    (an edge without belief counting as 0). *)
Theorem neighbors_in_internal_subgraph (S : set_order) (w : world) (g : loc)
    (g0 : nxgraph attrs) (node : Node) (reverse : bool) :
  edge_filter_functions w !! "filter_to_internal_edges" = Some filter_to_internal_edges ->
  heap w !! g = Some (DiGraph g0) ->
  wf_object (DiGraph g0) = true -> evidence_flagged (DiGraph g0) ->
  has_node g0 node = true ->
  exists w1 g1 new0 l,
    get_subgraph g "filter_to_internal_edges" w = (w1, Ok g1) /\
    heap w1 !! g1 = Some (DiGraph new0) /\
    get_sorted_neighbors S new0 node reverse None = Ok l /\
    NoDup l /\
    (forall n, n ∈ l <->
       exists d stmts s,
         edge_data g0 (connecting node reverse n).1 (connecting node reverse n).2 = Ok d /\
         statements d = Some stmts /\ s ∈ stmts /\ internal s = Some true) /\
    belief_descending g0 node reverse l /\
    sorted_by_descending_belief g0 node reverse l.
Proof.
  intros Hf Hg Hwf Hflag Hn.
  destruct (internal_subgraph_spec w g (DiGraph g0) Hf Hg Hwf Hflag)
    as (new_gr & Hrun & Hclass & Hwf' & _ & Hnodes & Hedges).
  destruct new_gr as [new0 | new0]; [| contradiction]. simpl in Hnodes.
  simpl in Hwf, Hwf'.
  apply andb_true_iff in Hwf as [Hwf _]. apply andb_true_iff in Hwf' as [Hwf' _].
  pose proof (wf_graph_nodup_adj g0 Hwf) as Hadj.
  pose proof (wf_graph_nodup_adj new0 Hwf') as Hadj'.
  assert (Hn' : has_node new0 node = true) by (unfold has_node; rewrite Hnodes; exact Hn).
  assert (Hkept : forall u v d,
    get_adj (_succ new0) u v = Some d <->
    get_adj (_succ g0) u v = Some d /\
    exists stmts s, statements d = Some stmts /\ s ∈ stmts /\ internal s = Some true).
  { intros u v d. rewrite <- !elem_of_edges by assumption.
    specialize (Hedges u v [] d). rewrite !elem_of_graph_edges_DiGraph in Hedges.
    split.
    - intros H. destruct (proj1 Hedges (conj eq_refl H)) as [[_ H0] Hex]. auto.
    - intros [H0 Hex]. apply (proj2 Hedges (conj (conj eq_refl H0) Hex)). }
  destruct (neighbors_connected new0 node reverse Hwf' Hn') as (nbrs & Hnb & Hkey).
  destruct (neighbors_iff_edge new0 node reverse nbrs Hwf' Hnb) as [Hnd Hmem].
  assert (Hrun' : exists l, get_sorted_neighbors S new0 node reverse None = Ok l /\
                            l ≡ₚ nbrs /\ belief_descending new0 node reverse l).
  { unfold get_sorted_neighbors, belief_descending. simpl.
    unfold neighbors_of in Hnb.
    destruct reverse; rewrite Hnb; simpl;
      [apply (sorted_reverse_spec _ (connecting_belief new0 node true) nbrs Hkey)
      |apply (sorted_reverse_spec _ (connecting_belief new0 node false) nbrs Hkey)]. }
  destruct Hrun' as (l & Hl & Hperm & Hs).
  eexists _, _, new0, l. split; [exact Hrun |].
  split; [simpl; apply list_lookup_middle; reflexivity |].
  split; [exact Hl |]. split; [rewrite Hperm; exact Hnd |].
  assert (Hdata : forall u v, edge_data g0 u v
                  = match get_adj (_succ g0) u v with
                    | Some d => Ok d
                    | None => Raise KeyError
                    end).
  { intros u v. unfold edge_data, get_adj, odict_item.
    destruct (odict_get (_succ g0) u) as [sn|]; simpl; [| reflexivity].
    destruct (odict_get sn v); reflexivity. }
  split.
  - intros n. rewrite Hperm, Hmem. split.
    + intros [d Hd]. apply Hkept in Hd as [Hd (stmts & s & Hst)].
      exists d, stmts, s. rewrite Hdata, Hd. auto.
    + intros (d & stmts & s & Hd & Hst). rewrite Hdata in Hd.
      destruct (get_adj (_succ g0) _ _) as [d'|] eqn:E; [| discriminate].
      injection Hd as ->. exists d. apply Hkept. eauto.
  - assert (Hsame : forall n, n ∈ l ->
              connecting_belief new0 node reverse n = connecting_belief g0 node reverse n).
    { intros n Hin. rewrite Hperm in Hin. apply Hmem in Hin as [d Hd].
      pose proof (proj1 (Hkept _ _ d) Hd) as [Hd0 _].
      unfold connecting_belief, edge_belief.
      destruct reverse; simpl in Hd, Hd0; rewrite Hd, Hd0; reflexivity. }
    assert (Hdesc : belief_descending g0 node reverse l).
    { unfold belief_descending in *.
      eapply StronglySorted_ext_in; [| exact Hs].
      intros a b Ha Hb Hab. simpl in Hab.
      rewrite <- (Hsame a Ha), <- (Hsame b Hb). exact Hab. }
    split; [exact Hdesc |]. apply belief_descending_stated; assumption.
Qed.

Lemma neighbors_in_internal_subgraph_witness :
  exists w1 g1 new0 l,
    get_subgraph 0%nat "filter_to_internal_edges" (module_loaded [DiGraph example_graph])
    = (w1, Ok g1) /\
    heap w1 !! g1 = Some (DiGraph new0) /\
    get_sorted_neighbors insertion_order new0 (NStr "N") false None = Ok l /\
    l = [NStr "X"; NStr "Z"] /\
    NoDup l /\ belief_descending example_graph (NStr "N") false l /\
    sorted_by_descending_belief example_graph (NStr "N") false l.
Proof.
  destruct (neighbors_in_internal_subgraph insertion_order
              (module_loaded [DiGraph example_graph]) 0%nat example_graph (NStr "N") false)
    as (w1 & g1 & new0 & l & Hrun & Hheap & Hl & Hnd & _ & Hs & Hstated);
    [apply module_loaded_registry | reflexivity | vm_compute; reflexivity
    | exact example_graph_flagged | vm_compute; reflexivity |].
  exists w1, g1, new0, l.
  split; [exact Hrun |]. split; [exact Hheap |]. split; [exact Hl |].
  split; [| auto].
  vm_compute in Hrun. injection Hrun as <- <-.
  vm_compute in Hheap. injection Hheap as <-.
  vm_compute in Hl. injection Hl as <-. reflexivity.
Defined.

(** The neighbours of [N] in the subgraph of the example: [X] (0.9) and [Z]
    (no belief) have internal evidence, [Y] has not. *)
Example neighbors_in_internal_subgraph_example :
  let w1 := fst (get_subgraph 0%nat "filter_to_internal_edges"
                   (module_loaded [DiGraph example_graph])) in
  match heap w1 !! 1%nat with
  | Some (DiGraph new0) =>
      get_sorted_neighbors insertion_order new0 (NStr "N") false None
      = Ok [NStr "X"; NStr "Z"]
  | _ => False
  end.
Proof. vm_compute. reflexivity. Qed.

(** X16. An allow-list only prunes: every neighbour returned with a
    non-empty allow-list is also returned without one, and a larger
    allow-list never loses a neighbour. *)
Theorem allow_list_only_prunes (S : set_order) (G : nxgraph attrs) (node : Node)
    (reverse : bool) (allowed allowed' : list edge) :
  allowed <> [] -> (forall e, e ∈ allowed -> e ∈ allowed') ->
  wf_graph G = true -> has_node G node = true ->
  exists l l' full,
    get_sorted_neighbors S G node reverse (Some allowed) = Ok l /\
    get_sorted_neighbors S G node reverse (Some allowed') = Ok l' /\
    get_sorted_neighbors S G node reverse None = Ok full /\
    (forall n, n ∈ l -> n ∈ l') /\ (forall n, n ∈ l' -> n ∈ full).
Proof.
  intros Hne Hsub Hwf Hn.
  assert (Hne' : allowed' <> []).
  { destruct allowed as [|e es]; [contradiction |].
    intros ->. eapply not_elem_of_nil. apply (Hsub e). left. }
  destruct (get_sorted_neighbors_restricted S G node reverse allowed Hne Hwf Hn)
    as (nbrs & l & Hnb & Hl & _ & Hin & _).
  destruct (get_sorted_neighbors_restricted S G node reverse allowed' Hne' Hwf Hn)
    as (nbrs' & l' & Hnb' & Hl' & _ & Hin' & _).
  rewrite Hnb in Hnb'. injection Hnb' as <-.
  destruct (neighbors_connected G node reverse Hwf Hn) as (nbrs' & Hnb' & Hkey).
  rewrite Hnb in Hnb'. injection Hnb' as <-.
  assert (Hfull : exists full, get_sorted_neighbors S G node reverse None = Ok full /\
                               full ≡ₚ nbrs).
  { unfold get_sorted_neighbors. simpl. unfold neighbors_of in Hnb.
    destruct reverse; rewrite Hnb; simpl;
      [destruct (sorted_reverse_spec _ (connecting_belief G node true) nbrs Hkey)
         as (full & Hfull & Hperm & _)
      |destruct (sorted_reverse_spec _ (connecting_belief G node false) nbrs Hkey)
         as (full & Hfull & Hperm & _)];
      exists full; auto. }
  destruct Hfull as (full & Hfull & Hperm).
  exists l, l', full. split; [exact Hl |]. split; [exact Hl' |]. split; [exact Hfull |].
  split.
  - intros n Hn0. apply Hin in Hn0 as [H1 H2]. apply Hin'. auto.
  - intros n Hn0. apply Hin' in Hn0 as [H1 _]. rewrite Hperm. exact H1.
Qed.

Lemma allow_list_only_prunes_witness :
  exists l l' full,
    get_sorted_neighbors insertion_order example_graph (NStr "N") false
      (Some [(NStr "N", NStr "X")]) = Ok l /\
    get_sorted_neighbors insertion_order example_graph (NStr "N") false
      (Some [(NStr "N", NStr "Z"); (NStr "N", NStr "X")]) = Ok l' /\
    get_sorted_neighbors insertion_order example_graph (NStr "N") false None = Ok full /\
    (forall n, n ∈ l -> n ∈ l') /\ (forall n, n ∈ l' -> n ∈ full).
Proof.
  apply (allow_list_only_prunes insertion_order example_graph (NStr "N") false
           [(NStr "N", NStr "X")] [(NStr "N", NStr "Z"); (NStr "N", NStr "X")]);
    [discriminate | | vm_compute; reflexivity | vm_compute; reflexivity].
  intros e He. right. exact He.
Defined.
